(** * DrawMeATree: the trace parser and the tree builder of [draw.py]

    A shallow embedding of the functions of [draw.py] that turn the text of
    a WinDbg [wt] trace into a call tree, with the properties its
    specification states about them.

    - Python integers are [Z]; text is [string], a character being a code
      point below 256.
    - An [anytree] node is a mutable object with a name, a parent link and
      an ordered list of children.  The objects live in a store (a list
      indexed by allocation order), a reference is an index into it, and
      Python's [None] is [None].
    - A raised exception is the [Raise] case of [result]; a function that
      mutates the store takes it and returns the new one. *)

From Stdlib Require Import ZArith Lia Ascii String.
From stdpp Require Import base option list strings.

Local Open Scope Z_scope.
Local Set Warnings "-register-all".

(** ** Exceptions and results *)

(** The messages of the [ValueError]s: those [draw.py] raises, with the
    values their f-strings interpolate, in the order of interpolation, and
    those of the built-ins it calls, [int] and [list.index]. *)
Inductive message :=
  | CouldntAddEntry (lvl : Z) (function : string) (index : Z) (node_name : string)
  | CouldntRetrieveAttribute (module_node : string)
  | CouldntParseInputFile
  | InvalidLiteral (text : string)
  | NotInList (x : string).

Inductive exn :=
  | ValueError (msg : message)
  | AttributeError          (* an attribute of [None] was read *)
  | IndexError              (* a list was indexed past its end *)
  | DanglingReference.      (* a reference outside the store: no Python
                               program state has one *)

Inductive result (A : Type) :=
  | Ok (a : A)
  | Raise (e : exn).
Arguments Ok {A} a.
Arguments Raise {A} e.

#[global] Instance result_ret : MRet result := λ A a, Ok a.
#[global] Instance result_fmap : FMap result := λ A B f m,
  match m with
  | Ok a => Ok (f a)
  | Raise e => Raise e
  end.
#[global] Instance result_bind : MBind result := λ A B f m,
  match m with
  | Ok a => f a
  | Raise e => Raise e
  end.

(** [for x in xs: st = body st x], stopping at the first exception. *)
Fixpoint for_each {St X : Type} (body : St → X → result St) (st : St) (xs : list X)
  : result St :=
  match xs with
  | [] => Ok st
  | x :: rest => st' ← body st x; for_each body st' rest
  end.

(** ** The store of [anytree] nodes *)

(** A reference to a node: its index in the store. *)
Abbreviation ref := nat (only parsing).

Record Node := mkNode {
  name : string;
  parent : option ref;
  children : list ref;
}.

Abbreviation heap := (list Node).

Definition add_child (c : ref) (n : Node) : Node :=
  mkNode (name n) (parent n) (children n ++ [c]).

(** [Node(function, parent=p)]: allocates the node and, when [p] is a node,
    appends the new node to the children of [p]. *)
Definition new_Node (h : heap) (function : string) (p : option ref) : heap * ref :=
  let id := length h in
  let h' := match p with
            | Some q => alter (add_child id) q h
            | None => h
            end in
  (h' ++ [mkNode function p []], id).
Arguments new_Node : simpl never.

(** [node.parent] and [node.name]; on [None] Python raises AttributeError. *)
Definition get_parent (h : heap) (node : option ref) : result (option ref) :=
  match node with
  | None => Raise AttributeError
  | Some c => match h !! c with
              | Some n => Ok (parent n)
              | None => Raise DanglingReference
              end
  end.

Definition get_name (h : heap) (node : option ref) : result string :=
  match node with
  | None => Raise AttributeError
  | Some c => match h !! c with
              | Some n => Ok (name n)
              | None => Raise DanglingReference
              end
  end.

(** [for i in range(k): curr_node = curr_node.parent] *)
Fixpoint walk_up (k : nat) (h : heap) (curr_node : option ref) : result (option ref) :=
  match k with
  | O => Ok curr_node
  | S k' => p ← get_parent h curr_node; walk_up k' h p
  end.

(** ** [adding_to_tree] *)

Definition adding_to_tree (h : heap) (tree curr_node : option ref)
    (curr_lvl index : Z) (function : string)
  : result (heap * option ref * option ref * Z) :=
  if index =? 0 then
    match tree with
    | None =>
        let '(h', n) := new_Node h function None in
        Ok (h', Some n, Some n, 0)
    | Some _ => Ok (h, tree, curr_node, curr_lvl)
    end
  else if index =? curr_lvl + 1 then
    let '(h', n) := new_Node h function curr_node in
    Ok (h', tree, Some n, curr_lvl + 1)
  else if index <? curr_lvl then
    c ← walk_up (Z.to_nat (curr_lvl - index)) h curr_node;
    Ok (h, tree, c, index)
  else if index =? curr_lvl then
    p ← get_parent h curr_node;
    let '(h', n) := new_Node h function p in
    Ok (h', tree, Some n, curr_lvl)
  else
    nm ← get_name h curr_node;
    Raise (ValueError (CouldntAddEntry curr_lvl function index nm)).

(** ** [generate_tree] *)

(** [s.find(sub)]: the least index at which [sub] occurs in [s], or -1. *)
Fixpoint find_from (i : Z) (s sub : string) : Z :=
  if String.prefix sub s then i
  else match s with
       | EmptyString => -1
       | String _ s' => find_from (i + 1) s' sub
       end.

Definition find (s sub : string) : Z := find_from 0 s sub.

Definition entry := (Z * string)%type.

(** The variables of the loop of [generate_tree], with the store. *)
Record frame := mkFrame {
  store : heap;
  tree : option ref;
  curr_node : option ref;
  curr_lvl : Z;
  next_index : option Z;
}.

Definition initial : frame := mkFrame [] None None 0 None.

(** [next_index is not None and index > next_index] *)
Definition child_of_filtered (next_index : option Z) (index : Z) : bool :=
  match next_index with
  | Some ni => ni <? index
  | None => false
  end.

(** The inner [for individual_filter in filters_list] loop: true when it
    leaves [is_valid_node] False. *)
Definition filtered_out (filters_list : list string) (function : string) : bool :=
  existsb (λ individual_filter, negb (find function individual_filter =? -1))
          filters_list.

Definition add_entry (st : frame) (index : Z) (function : string) : result frame :=
  '(h, t, c, l) ← adding_to_tree (store st) (tree st) (curr_node st) (curr_lvl st)
                                 index function;
  Ok (mkFrame h t c l (next_index st)).

Definition with_next_index (st : frame) (ni : option Z) : frame :=
  mkFrame (store st) (tree st) (curr_node st) (curr_lvl st) ni.

Definition loop_body (filters_list : option (list string)) (st : frame) (e : entry)
  : result frame :=
  let index := e.1 in
  let function := e.2 in
  match filters_list with
  | Some fl =>
      if child_of_filtered (next_index st) index then Ok st
      else if filtered_out fl function then Ok (with_next_index st (Some index))
      else add_entry (with_next_index st None) index function
  | None => add_entry st index function
  end.

Definition run (filters_list : option (list string)) (st : frame) (data : list entry)
  : result frame :=
  for_each (loop_body filters_list) st data.

(** The returned [tree], with the store its nodes live in. *)
Definition generate_tree (data : list entry) (filters_list : option (list string))
  : result (heap * option ref) :=
  st ← run filters_list initial data;
  Ok (store st, tree st).

(** ** Reading a tree off the store *)

(** The tree below a node, as a value: its label and the trees below its
    children, in order. *)
Inductive rose := Rose (label : string) (kids : list rose).

Fixpoint preorder (t : rose) : list string :=
  match t with
  | Rose l ks => l :: flat_map preorder ks
  end.

(** [to_rose fuel h id] follows the [children] lists from [id], at most
    [fuel] levels deep. *)
Fixpoint to_rose (fuel : nat) (h : heap) (id : ref) : option rose :=
  match fuel with
  | O => None
  | S fuel' =>
      n ← h !! id;
      ks ← mapM (to_rose fuel' h) (children n);
      Some (Rose (name n) ks)
  end.

(** A tree of a store with [k] nodes is at most [k] levels deep. *)
Definition tree_view (h : heap) (root : ref) : option rose :=
  to_rose (length h) h root.

(** What [generate_tree] returned, as a value: [None] when it returned
    [None] (no root was ever created). *)
Definition view (r : heap * option ref) : option rose :=
  match r.2 with
  | Some root => tree_view r.1 root
  | None => None
  end.

(** The labels of the nodes of the returned tree, in pre-order. *)
Definition tree_labels (r : heap * option ref) : list string :=
  match view r with
  | Some t => preorder t
  | None => []
  end.

(** ** Strings, as Python's [str] methods treat them *)

Definition code (c : ascii) : N := N_of_ascii c.

(** The characters [str.split()] splits on, among the code points below
    256: tab to carriage return, the four separators 28 to 31, the space,
    NEL and the no-break space. *)
Definition is_space (c : ascii) : bool :=
  ((9 <=? code c) && (code c <=? 13) || (28 <=? code c) && (code c <=? 32)
   || (code c =? 133) || (code c =? 160))%N.

(** [line.split()]: the maximal runs of characters that are not spaces;
    [cur] is the run being read. *)
Fixpoint split_from (cur : string) (s : string) : list string :=
  match s with
  | EmptyString => if String.eqb cur "" then [] else [cur]
  | String c s' =>
      if is_space c then
        if String.eqb cur "" then split_from "" s' else cur :: split_from "" s'
      else split_from (cur +:+ String c "") s'
  end.

Definition split (s : string) : list string := split_from "" s.

(** [s.replace(old, "")] for a one-character [old]. *)
Fixpoint remove_char (old : ascii) (s : string) : string :=
  match s with
  | EmptyString => EmptyString
  | String c s' =>
      if Ascii.eqb c old then remove_char old s' else String c (remove_char old s')
  end.

(** [s.split(sep)[0]] for a one-character [sep]: the text before the first
    [sep], all of [s] when it has none. *)
Fixpoint before_first (sep : ascii) (s : string) : string :=
  match s with
  | EmptyString => EmptyString
  | String c s' => if Ascii.eqb c sep then EmptyString else String c (before_first sep s')
  end.

Definition is_digit (c : ascii) : bool := ((48 <=? code c) && (code c <=? 57))%N.
Definition digit_value (c : ascii) : Z := Z.of_N (code c) - 48.

(** The digits of an integer literal after its first digit: digits, each
    of which one underscore may precede. *)
Fixpoint int_digits (acc : Z) (s : string) : option Z :=
  match s with
  | EmptyString => Some acc
  | String c s' =>
      if is_digit c then int_digits (10 * acc + digit_value c) s'
      else if Ascii.eqb c "_" then
        match s' with
        | String d s'' =>
            if is_digit d then int_digits (10 * acc + digit_value d) s'' else None
        | EmptyString => None
        end
      else None
  end.

Definition int_unsigned (s : string) : option Z :=
  match s with
  | String c s' => if is_digit c then int_digits (digit_value c) s' else None
  | EmptyString => None
  end.

(** [int(s)] for a text without spaces: an optional sign and a decimal
    literal; anything else raises ValueError. *)
Definition int (s : string) : result Z :=
  let r := match s with
           | String "-" s' => Z.opp <$> int_unsigned s'
           | String "+" s' => int_unsigned s'
           | _ => int_unsigned s
           end in
  match r with
  | Some z => Ok z
  | None => Raise (ValueError (InvalidLiteral s))
  end.

(** [xs[i]] *)
Definition item {X : Type} (xs : list X) (i : nat) : result X :=
  match xs !! i with
  | Some x => Ok x
  | None => Raise IndexError
  end.

(** ** The module list and the node attributes *)

(** [adding_to_module_list], on the global [MODULES_LIST]. *)
Definition adding_to_module_list (MODULES_LIST : list string) (function_module : string)
  : list string :=
  let module_node := before_first "!" function_module in
  if String.eqb module_node "" then MODULES_LIST
  else if existsb (String.eqb module_node) MODULES_LIST then MODULES_LIST
  else MODULES_LIST ++ [module_node].

Definition colors : list string :=
  ["lightblue"; "thistle"; "wheat"; "darkseagreen"; "darksalmon"; "papayawhip";
   "rosybrown"; "lightcoral"; "tan"; "cadetblue"; "plum"]%string.

(** [xs.index(x)] *)
Fixpoint list_index (x : string) (xs : list string) : result nat :=
  match xs with
  | [] => Raise (ValueError (NotInList x))
  | y :: rest => if String.eqb y x then Ok O else S <$> list_index x rest
  end.

Definition attributes (fillcolor : string) : string :=
  "shape=box, style=filled, fillcolor = " +:+ fillcolor.

(** The body of [for module in MODULES_LIST] in [determine_node_att], on
    the modules [rest] still to visit. *)
Fixpoint attribute_loop (MODULES_LIST rest : list string) (module_node : string)
  : result string :=
  match rest with
  | [] => Raise (ValueError (CouldntRetrieveAttribute module_node))
  | module :: rest' =>
      if String.eqb module_node module then
        index ← list_index module_node MODULES_LIST;
        if (length colors <=? index)%nat then Ok (attributes "grey")
        else attributes <$> item colors index
      else attribute_loop MODULES_LIST rest' module_node
  end.

Definition determine_node_att (MODULES_LIST : list string) (node : Node) : result string :=
  let module_node := before_first "!" (name node) in
  attribute_loop MODULES_LIST MODULES_LIST module_node.

(** ** [parse_input_file] *)

(** [.*$] at the end of the pattern: any characters but a line feed, up to
    the end of the text or to a line feed that ends it. *)
Fixpoint rest_of_line (s : string) : bool :=
  match s with
  | EmptyString => true
  | String c s' => if Ascii.eqb c "010" then String.eqb s' "" else rest_of_line s'
  end.

(** [str(filter_level)] for a level from 0 to 9, the levels the command line
    admits ([choices=range(1, 10)]): the one digit. *)
Definition str_level (filter_level : nat) : ascii := ascii_of_nat (48 + filter_level).

(** The pattern ["\[  [0-" + str(filter_level) + "].*$"] matched at the
    start of [s]. *)
Definition depth_marker_here (filter_level : nat) (s : string) : bool :=
  match s with
  | String "[" (String " " (String " " (String d s'))) =>
      ((code "0" <=? code d) && (code d <=? code (str_level filter_level)))%N
      && rest_of_line s'
  | _ => false
  end.

(** [re.search] of that pattern: a match at some position of the line. *)
Fixpoint re_search (filter_level : nat) (line : string) : bool :=
  depth_marker_here filter_level line
  || match line with
     | EmptyString => false
     | String _ line' => re_search filter_level line'
     end.

(** The variables of the loop of [parse_input_file]: the list being built
    and the global [MODULES_LIST]. *)
Definition parse_line (filter_level : nat) (st : list entry * list string) (line : string)
  : result (list entry * list string) :=
  let '(parsed_lines, MODULES_LIST) := st in
  if re_search filter_level line then
    let words := split line in
    w ← item words 3;
    index ← int (remove_char "]" w);
    function ← item words 4;
    Ok (parsed_lines ++ [(index, function)], adding_to_module_list MODULES_LIST function)
  else Ok st.

(** [data] is what [readlines()] returned; the result is the returned list
    and [MODULES_LIST] as the call leaves it. *)
Definition parse_input_file (data : list string) (filter_level : nat)
    (MODULES_LIST : list string) : result (list entry * list string) :=
  st ← for_each (parse_line filter_level) ([], MODULES_LIST) data;
  if decide (st.1 = []) then Raise (ValueError CouldntParseInputFile)
  else Ok st.

(** ** Notions the properties are stated with *)

(** [at_depth h id d]: following parent links from [id] reaches, after
    exactly [d] links, a node without parent. *)
Inductive at_depth (h : heap) : ref → Z → Prop :=
  | at_depth_root id n :
      h !! id = Some n → parent n = None → at_depth h id 0
  | at_depth_child id n p d :
      h !! id = Some n → parent n = Some p → at_depth h p d →
      at_depth h id (d + 1).

(** The store of a run: the children of a node were allocated after it. *)
Definition wf_store (h : heap) : Prop :=
  ∀ id n, h !! id = Some n → Forall (λ c, id < c < length h)%nat (children n).

(** Adjacency as section 4.2 words it: the first entry at depth 0, every
    later one a descent ([index = current_level + 1]) or a sibling
    ([index = current_level]). *)
Fixpoint descents_or_siblings (curr_lvl : Z) (rest : list entry) : bool :=
  match rest with
  | [] => true
  | e :: rest' =>
      ((e.1 =? curr_lvl + 1) || (e.1 =? curr_lvl)) && descents_or_siblings e.1 rest'
  end.

Definition strictly_valid_adjacency (data : list entry) : bool :=
  match data with
  | [] => false
  | e :: rest => (e.1 =? 0) && descents_or_siblings 0 rest
  end.

(** The same, with every entry after the first below the root: a sibling
    only at a depth of 1 or more. *)
Fixpoint descents_or_siblings_below (curr_lvl : Z) (rest : list entry) : bool :=
  match rest with
  | [] => true
  | e :: rest' =>
      ((e.1 =? curr_lvl + 1) || (e.1 =? curr_lvl) && (0 <? e.1))
      && descents_or_siblings_below e.1 rest'
  end.

Definition valid_adjacency_below_root (data : list entry) : bool :=
  match data with
  | [] => false
  | e :: rest => (e.1 =? 0) && descents_or_siblings_below 0 rest
  end.

(** The name of a node of the store. *)
Definition name_of (h : heap) (id : ref) : string :=
  match h !! id with
  | Some n => name n
  | None => ""
  end.

Definition is_leaf (h : heap) (id : ref) : Prop :=
  ∃ n, h !! id = Some n ∧ children n = [].

(** The path from a node up to the root, as a list of frames, nearest
    ancestor first: each frame is an ancestor with the children it has
    before the one on the path, all of them leaves; the node on the path is
    its last child, and has it as parent. *)
Definition path := list (ref * list ref).

Fixpoint path_ok (h : heap) (child : ref) (up : path) : Prop :=
  match up with
  | [] => True
  | (p, leaves) :: up' =>
      (∃ n, h !! p = Some n ∧ children n = leaves ++ [child])
      ∧ get_parent h (Some child) = Ok (Some p)
      ∧ Forall (is_leaf h) leaves
      ∧ Forall (λ l, l < child)%nat leaves
      ∧ (p < child)%nat
      ∧ path_ok h p up'
  end.

Fixpoint path_root (child : ref) (up : path) : ref :=
  match up with
  | [] => child
  | (p, _) :: up' => path_root p up'
  end.

(** The tree above a subtree [t] whose root the path starts from. *)
Fixpoint plug (h : heap) (t : rose) (up : path) : rose :=
  match up with
  | [] => t
  | (p, leaves) :: up' =>
      plug h (Rose (name_of h p) (map (λ l, Rose (name_of h l) []) leaves ++ [t])) up'
  end.

(** The labels the path contributes in pre-order, before the subtree. *)
Fixpoint path_labels (h : heap) (up : path) : list string :=
  match up with
  | [] => []
  | (p, leaves) :: up' => path_labels h up' ++ name_of h p :: map (name_of h) leaves
  end.

(** A record line of a [wt] trace: two counters, the depth marker and the
    label, ended by a line feed. *)
Definition LF : string := String "010" "".

Definition wt_line (depth function : string) : string :=
  "    3     0 [  " +:+ depth +:+ "] " +:+ function +:+ LF.

(** The cursor of the builder once the root exists: a node, at the depth
    the builder carries. *)
Definition cursor_ok (h : heap) (tree curr_node : option ref) (curr_lvl : Z) : Prop :=
  tree = None ∨ ∃ id, curr_node = Some id ∧ at_depth h id curr_lvl.

(** The entry gets to the call of [adding_to_tree]: there is no filter
    list, or the filter neither skips nor suppresses it. *)
Definition reaches_builder (filters_list : option (list string)) (st : frame) (e : entry)
  : bool :=
  match filters_list with
  | Some fl => negb (child_of_filtered (next_index st) e.1) && negb (filtered_out fl e.2)
  | None => true
  end.

(** The ascent of section 4.2 on an entry at depth [index]: the cursor goes
    up [curr_lvl - index] parent links to the ancestor at depth [index],
    the level becomes [index], and the store is left as it is. *)
Definition ascends (st : frame) (index : Z) (function : string) : Prop :=
  ∃ a, walk_up (Z.to_nat (curr_lvl st - index)) (store st) (curr_node st) = Ok (Some a)
       ∧ at_depth (store st) a index
       ∧ adding_to_tree (store st) (tree st) (curr_node st) (curr_lvl st) index function
         = Ok (store st, tree st, Some a, index).

(** What the parser has recorded when it has read the entries [parsed]:
    the module prefixes of their labels that are not empty. *)
Definition records (parsed : list entry) (MODULES_LIST : list string) : Prop :=
  ∀ x, x ∈ MODULES_LIST ↔ x ≠ ""%string ∧ ∃ e, e ∈ parsed ∧ before_first "!" e.2 = x.

(** The store of an unfiltered run on a sequence of descents and siblings
    that has read the labels [labels]: the cursor is a leaf at the end of a
    path from the root, [curr_lvl] links long, and the labels read are those
    of the path and of the cursor, in pre-order. *)
Definition on_spine (labels : list string) (st : frame) : Prop :=
  ∃ c up,
    tree st = Some (path_root c up)
    ∧ curr_node st = Some c
    ∧ curr_lvl st = Z.of_nat (length up)
    ∧ path_ok (store st) c up
    ∧ is_leaf (store st) c
    ∧ path_labels (store st) up ++ [name_of (store st) c] = labels.

(** The references of a run point into the store: the cursor, when it is a
    node, and the parent link of every node. *)
Definition valid_ref (h : heap) (node : option ref) : Prop :=
  ∀ id, node = Some id → (id < length h)%nat.

Definition parents_ok (h : heap) : Prop :=
  ∀ id n, h !! id = Some n → valid_ref h (parent n).

Definition refs_ok (h : heap) (tree curr_node : option ref) (curr_lvl : Z) : Prop :=
  valid_ref h curr_node ∧ parents_ok h.

(** The text of a one-digit depth. *)
Definition digit_text (d : nat) : string := String (ascii_of_nat (48 + d)) "".

(** ** The filter presets of [parse_arguments] *)

Definition error_filters : list string := ["Error"; "mkstr"]%string.

Definition char_filters : list string :=
  ["toupper"; "tolower"; "Unicode"; "towlower"; "towupper"]%string.

Definition routine_filters : list string :=
  ["CriticalSection"; "security_check"; "Alloc"; "Heap"; "free"; "operator";
   "LockExclusive"]%string.

Definition irrelevant_ops : list string :=
  ["memcpy"; "memmove"; "memset"; "Close"; "Rtlp"; "Language"; "initterm"; "Fls"]%string.

(** The end of [parse_arguments]: [args.filters_words.extend(...)], by
    [args.filter_level]; the result is [args.filters_words] as the function
    returns it. *)
Definition extend_filters_words (filter_level : string) (filters_words : list string)
  : list string :=
  if String.eqb filter_level "light" then
    filters_words ++ (routine_filters ++ error_filters)
  else if String.eqb filter_level "medium" then
    filters_words ++ ((routine_filters ++ error_filters) ++ char_filters)
  else if String.eqb filter_level "high" then
    filters_words ++ (((routine_filters ++ error_filters) ++ char_filters) ++ irrelevant_ops)
  else filters_words.

(** ** The loop of [generate_png] over the lines of the dot export *)

(** One turn of [for line in dot_tree], on the text written to the file so
    far and [lines_seen]. *)
Definition write_line (st : string * list string) (line : string) : string * list string :=
  let '(dot_file, lines_seen) := st in
  if existsb (String.eqb line) lines_seen then st
  else (dot_file +:+ line, lines_seen ++ [line]).

(** [dot_tree] is the list of lines the exporter yields; the result is the
    text of the file and [lines_seen] at the end of the loop. *)
Definition write_dot_lines (dot_tree : list string) : string * list string :=
  fold_left write_line dot_tree (""%string, []).

(** ** More notions for the properties *)

(** The cursor under the root: it is a node at depth [curr_lvl], and
    [curr_lvl] parent links lead from it to the root. *)
Definition under_root (h : heap) (tree curr_node : option ref) (curr_lvl : Z) : Prop :=
  tree = None
  ∨ ∃ id, curr_node = Some id ∧ at_depth h id curr_lvl
          ∧ walk_up (Z.to_nat curr_lvl) h (Some id) = Ok tree.

(** The depths of a pre-order walk: the first entry at depth 0, every later
    one at a depth from 0 to one more than the depth before it. *)
Fixpoint preorder_steps (prev : Z) (rest : list entry) : bool :=
  match rest with
  | [] => true
  | e :: rest' => (0 <=? e.1) && (e.1 <=? prev + 1) && preorder_steps e.1 rest'
  end.

Definition preorder_trace (data : list entry) : bool :=
  match data with
  | [] => false
  | e :: rest => (e.1 =? 0) && preorder_steps 0 rest
  end.

(** What a run on a pre-order walk keeps, [prev] being the depth of the
    entry read last. *)
Definition trace_inv (prev : Z) (st : frame) : Prop :=
  cursor_ok (store st) (tree st) (curr_node st) (curr_lvl st)
  ∧ 0 ≤ curr_lvl st
  ∧ match next_index st with
    | Some d => 0 ≤ d ≤ curr_lvl st + 1 ∧ (tree st = None → d = 0)
    | None => is_Some (tree st) ∧ prev ≤ curr_lvl st
    end.

(** The run has a root, or its filter has suppressed every entry at depth
    0 so far. *)
Definition started (filters_list : option (list string)) (st : frame) : Prop :=
  is_Some (tree st)
  ∨ (tree st = None ∧ next_index st = Some 0 ∧ is_Some filters_list).

(** Parent links and children lists say the same. *)
Definition consistent (h : heap) : Prop :=
  ∀ p c, (∃ np, h !! p = Some np ∧ c ∈ children np)
         ↔ (∃ nc, h !! c = Some nc ∧ parent nc = Some p).

(** A text that [split] gives back as one word: not empty, without space
    characters. *)
Fixpoint no_space (s : string) : bool :=
  match s with
  | EmptyString => true
  | String c s' => negb (is_space c) && no_space s'
  end.

Definition is_word (s : string) : bool := negb (String.eqb s "") && no_space s.

(** The record line of an entry of one-digit depth. *)
Definition line_of (e : entry) : string := wt_line (digit_text (Z.to_nat e.1)) e.2.

(** The links of the store of a run: children made after their parent,
    parents inside the store, parent links and children lists in agreement,
    no child listed twice. *)
Definition well_linked (h : heap) : Prop :=
  wf_store h ∧ parents_ok h ∧ consistent h
  ∧ ∀ id n, h !! id = Some n → NoDup (children n).

(** The store of a run whose root is the first node made: no other node is
    without parent, and a parent is made before its children. *)
Definition rooted_at_0 (h : heap) (tree : option ref) : Prop :=
  match tree with
  | None => h = []
  | Some root =>
      root = 0%nat
      ∧ ∀ id n, h !! id = Some n →
                (id = 0%nat ∧ parent n = None) ∨ ∃ p, parent n = Some p ∧ (p < id)%nat
  end.

(** What [parse_input_file] reads from a line that matches the pattern:
    the fourth word without its brackets, as an integer, and the fifth
    word. *)
Definition entry_of_line (line : string) : result entry :=
  let words := split line in
  w ← item words 3;
  index ← int (remove_char "]" w);
  function ← item words 4;
  Ok (index, function).

(** ** The trees of the main program *)

(** The three calls of the main program that make the trees: the parser,
    the builder without filter and the builder with the filter words; the
    result is the two trees and [MODULES_LIST] as the parser leaves it. *)
Definition build_trees (data : list string) (depth_level : nat)
    (filters_words : list string) (MODULES_LIST : list string)
  : result ((heap * option ref) * (heap * option ref) * list string) :=
  '(wt_input, MODULES_LIST') ← parse_input_file data depth_level MODULES_LIST;
  full_tree ← generate_tree wt_input None;
  filtered_tree ← generate_tree wt_input (Some filters_words);
  Ok (full_tree, filtered_tree, MODULES_LIST').

(** The text of a list of lines, one after the other. *)
Definition concat_lines (lines : list string) : string := foldr String.append ""%string lines.

(** ** The entries before the root *)

(** The depths that can follow a first entry at depth 1 while there is no
    root: each of them 1 or more, and at most one more than the depth
    before it. *)
Fixpoint steps_before_root (prev : Z) (rest : list entry) : bool :=
  match rest with
  | [] => true
  | e :: rest' => (1 <=? e.1) && (e.1 <=? prev + 1) && steps_before_root e.1 rest'
  end.

(** The variables of an unfiltered run after a first entry at depth 1,
    while there is no root: the cursor is a node, [curr_lvl - 1] parent
    links below a node without parent. *)
Definition before_root (st : frame) : Prop :=
  tree st = None ∧ next_index st = None
  ∧ ∃ id, curr_node st = Some id ∧ at_depth (store st) id (curr_lvl st - 1).

(** A store whose nodes were allocated after the [k] nodes of another one:
    every reference is [k] further. *)
Definition shift_ref (k : nat) (id : ref) : ref := (k + id)%nat.

Definition shift_node (k : nat) (n : Node) : Node :=
  mkNode (name n) (shift_ref k <$> parent n) (shift_ref k <$> children n).

Definition shift_store (old h : heap) : heap := old ++ (shift_node (length old) <$> h).

Definition shift_frame (old : heap) (st : frame) : frame :=
  mkFrame (shift_store old (store st))
          (shift_ref (length old) <$> tree st)
          (shift_ref (length old) <$> curr_node st)
          (curr_lvl st) (next_index st).

(** * Properties *)

(** ** The store under [Node(...)] *)

Section store.
Context (h : heap) (function : string).

Lemma new_Node_snd p : (new_Node h function p).2 = length h.
Proof. reflexivity. Qed.

Lemma new_Node_length p : length (new_Node h function p).1 = S (length h).
Proof.
  unfold new_Node; simpl. rewrite length_app; simpl.
  destruct p; rewrite ?length_alter; lia.
Qed.

Lemma new_Node_lookup_new p :
  (new_Node h function p).1 !! length h = Some (mkNode function p []).
Proof.
  unfold new_Node; simpl.
  destruct p as [q|].
  - apply list_lookup_middle. by rewrite length_alter.
  - apply list_lookup_middle; reflexivity.
Qed.

Lemma new_Node_lookup_ne p id :
  (id < length h)%nat → p ≠ Some id → (new_Node h function p).1 !! id = h !! id.
Proof.
  intros Hlt Hne. unfold new_Node; simpl.
  destruct p as [q|].
  - rewrite lookup_app_l by (rewrite length_alter; lia).
    apply list_lookup_alter_ne. congruence.
  - apply lookup_app_l; lia.
Qed.

Lemma new_Node_lookup_parent q n :
  h !! q = Some n →
  (new_Node h function (Some q)).1 !! q = Some (add_child (length h) n).
Proof.
  intros Hq. unfold new_Node; simpl.
  rewrite lookup_app_l by (rewrite length_alter; eapply lookup_lt_Some; eauto).
  rewrite list_lookup_alter_eq, Hq. reflexivity.
Qed.

(** Allocation keeps the name and the parent of every node. *)
Lemma new_Node_lookup_old p id n :
  h !! id = Some n →
  ∃ n', (new_Node h function p).1 !! id = Some n'
        ∧ name n' = name n ∧ parent n' = parent n.
Proof.
  intros Hid.
  destruct (decide (p = Some id)) as [->|Hne].
  - exists (add_child (length h) n). split; [|done].
    by apply new_Node_lookup_parent.
  - exists n. split; [|done].
    rewrite new_Node_lookup_ne; eauto using lookup_lt_Some.
Qed.

Lemma new_Node_name_of p id :
  (id < length h)%nat → name_of (new_Node h function p).1 id = name_of h id.
Proof.
  intros Hlt. unfold name_of.
  destruct (lookup_lt_is_Some_2 h id Hlt) as [n Hn].
  destruct (new_Node_lookup_old p id n Hn) as (n' & -> & Hname & _).
  by rewrite Hn.
Qed.

Lemma new_Node_wf p : wf_store h → wf_store (new_Node h function p).1.
Proof.
  intros Hwf id n Hid.
  pose proof (lookup_lt_Some _ _ _ Hid) as Hlt.
  rewrite new_Node_length in *.
  destruct (decide (id = length h)) as [->|Hne].
  - rewrite new_Node_lookup_new in Hid. injection Hid as <-. constructor.
  - assert (id < length h)%nat as Hlt' by lia.
    destruct (lookup_lt_is_Some_2 h id Hlt') as [n0 Hn0].
    pose proof (Hwf _ _ Hn0) as Hch.
    destruct (decide (p = Some id)) as [->|Hp].
    + rewrite (new_Node_lookup_parent _ _ Hn0) in Hid. injection Hid as <-.
      simpl. apply Forall_app. split.
      * eapply Forall_impl; [exact Hch|]. intros x; simpl; lia.
      * repeat constructor; lia.
    + rewrite new_Node_lookup_ne in Hid by done.
      rewrite Hn0 in Hid. injection Hid as <-.
      eapply Forall_impl; [exact Hch|]. intros x; simpl; lia.
Qed.
End store.

(** ** The cases of [adding_to_tree] *)

Lemma adding_to_tree_cases h t c l i f r :
  adding_to_tree h t c l i f = Ok r →
  (i = 0 ∧ t = None ∧ r = ((new_Node h f None).1, Some (length h), Some (length h), 0))
  ∨ (i = 0 ∧ is_Some t ∧ r = (h, t, c, l))
  ∨ (i ≠ 0 ∧ i = l + 1 ∧ r = ((new_Node h f c).1, t, Some (length h), l + 1))
  ∨ (i ≠ 0 ∧ i < l ∧ ∃ a, walk_up (Z.to_nat (l - i)) h c = Ok a ∧ r = (h, t, a, i))
  ∨ (i ≠ 0 ∧ i = l ∧ ∃ p, get_parent h c = Ok p
                          ∧ r = ((new_Node h f p).1, t, Some (length h), l)).
Proof.
  unfold adding_to_tree.
  destruct (Z.eqb_spec i 0) as [->|Hi0].
  { destruct t; intros [= <-]; eauto 10. }
  destruct (Z.eqb_spec i (l + 1)) as [->|Hi1].
  { intros [= <-]. eauto 10. }
  destruct (Z.ltb_spec i l) as [Hlt|Hge].
  { destruct (walk_up _ h c) as [a|] eqn:Hw; simpl; intros [= <-].
    do 3 right. left. eauto 10. }
  destruct (Z.eqb_spec i l) as [->|Hil].
  { destruct (get_parent h c) as [p|] eqn:Hp; simpl; intros [= <-].
    do 4 right. eauto 10. }
  destruct (get_name h c); simpl; discriminate.
Qed.

(** [adding_to_tree] leaves the store as it is or allocates one node,
    named by the entry. *)
Lemma adding_to_tree_store h t c l i f h' t' c' l' :
  adding_to_tree h t c l i f = Ok (h', t', c', l') →
  h' = h ∨ ∃ p, h' = (new_Node h f p).1.
Proof.
  intros Hadd.
  destruct (adding_to_tree_cases _ _ _ _ _ _ _ Hadd)
    as [(_ & _ & Hr)|[(_ & _ & Hr)|[(_ & _ & Hr)|[(_ & _ & a & _ & Hr)
       |(_ & _ & p & _ & Hr)]]]].
  - right. exists None. congruence.
  - left. congruence.
  - right. exists c. congruence.
  - left. congruence.
  - right. exists p. congruence.
Qed.

(** ** Runs *)

Lemma run_app fl st pre post :
  run fl st (pre ++ post) = (st' ← run fl st pre; run fl st' post).
Proof.
  unfold run. revert st. induction pre as [|e pre IH]; intros st; simpl; [done|].
  destruct (loop_body fl st e); simpl; [apply IH|done].
Qed.

(** A step of the loop either leaves the builder's variables alone (the
    entry is filtered) or is a call of [adding_to_tree] on them. *)
Lemma loop_body_cases fl st e st' :
  loop_body fl st e = Ok st' →
  (store st' = store st ∧ tree st' = tree st ∧ curr_node st' = curr_node st
   ∧ curr_lvl st' = curr_lvl st)
  ∨ adding_to_tree (store st) (tree st) (curr_node st) (curr_lvl st) e.1 e.2
    = Ok (store st', tree st', curr_node st', curr_lvl st').
Proof.
  unfold loop_body, add_entry.
  destruct fl as [fl|].
  - destruct (child_of_filtered _ _); [intros [= <-]; by left|].
    destruct (filtered_out _ _); [intros [= <-]; by left|].
    simpl. destruct (adding_to_tree _ _ _ _ _ _) as [[[[h t] c] l]|]; simpl;
      intros [= <-]. by right.
  - destruct (adding_to_tree _ _ _ _ _ _) as [[[[h t] c] l]|]; simpl;
      intros [= <-]. by right.
Qed.

(** A property of the builder's variables that [adding_to_tree] keeps, on
    entries satisfying [Q], holds along every run, filtered or not. *)
Lemma run_invariant (P : heap → option ref → option ref → Z → Prop) (Q : entry → Prop) :
  (∀ h t c l i f h' t' c' l',
      P h t c l → Q (i, f) →
      adding_to_tree h t c l i f = Ok (h', t', c', l') → P h' t' c' l') →
  ∀ fl data st st',
    run fl st data = Ok st' → Forall Q data →
    P (store st) (tree st) (curr_node st) (curr_lvl st) →
    P (store st') (tree st') (curr_node st') (curr_lvl st').
Proof.
  intros Hstep fl data. unfold run.
  induction data as [|e data IH]; intros st st'; simpl.
  { intros [= <-]. done. }
  destruct (loop_body fl st e) as [st1|] eqn:Hbody; simpl; [|done].
  intros Hrun HQ HP. apply Forall_cons in HQ as [HQe HQ].
  apply (IH st1 st' Hrun HQ).
  destruct (loop_body_cases _ _ _ _ Hbody) as [(-> & -> & -> & ->)|Hadd]; [done|].
  destruct e as [i f]. eapply Hstep; eauto.
Qed.

(** ** The cursor and its depth *)

Lemma at_depth_nonneg h id d : at_depth h id d → 0 ≤ d.
Proof. induction 1; lia. Qed.

Lemma at_depth_new_Node h f p id d :
  at_depth h id d → at_depth (new_Node h f p).1 id d.
Proof.
  induction 1 as [id n Hid Hp|id n q d Hid Hp _ IH].
  - destruct (new_Node_lookup_old h f p id n Hid) as (n' & Hn' & _ & Hpar).
    eapply at_depth_root; [exact Hn'|congruence].
  - destruct (new_Node_lookup_old h f p id n Hid) as (n' & Hn' & _ & Hpar).
    eapply at_depth_child; [exact Hn'|rewrite Hpar; exact Hp|exact IH].
Qed.

Lemma at_depth_new h f q d :
  at_depth h q d → at_depth (new_Node h f (Some q)).1 (length h) (d + 1).
Proof.
  intros Hq. eapply at_depth_child.
  - apply new_Node_lookup_new.
  - reflexivity.
  - by apply at_depth_new_Node.
Qed.

Lemma at_depth_parent h id d :
  at_depth h id d → 0 < d →
  ∃ p, get_parent h (Some id) = Ok (Some p) ∧ at_depth h p (d - 1).
Proof.
  destruct 1 as [id n Hid Hp|id n q d Hid Hp Hq]; [lia|].
  intros _. exists q. simpl. rewrite Hid, Hp.
  split; [done|]. by replace (d + 1 - 1) with d by lia.
Qed.

Lemma at_depth_get_name h id d :
  at_depth h id d → ∃ n, h !! id = Some n ∧ get_name h (Some id) = Ok (name n).
Proof. destruct 1 as [id n Hid _|id n ? ? Hid _ _]; exists n; simpl; by rewrite Hid. Qed.

(** Walking up [k] links from depth [d] lands on the ancestor at depth
    [d - k]. *)
Lemma at_depth_walk_up h k : ∀ id d,
  at_depth h id d → Z.of_nat k ≤ d →
  ∃ a, walk_up k h (Some id) = Ok (Some a) ∧ at_depth h a (d - Z.of_nat k).
Proof.
  induction k as [|k IH]; intros id d Hd Hk.
  - exists id. simpl. split; [done|]. by replace (d - Z.of_nat 0) with d by lia.
  - destruct (at_depth_parent h id d Hd) as (p & Hp & Hpd); [lia|].
    destruct (IH p (d - 1) Hpd) as (a & Ha & Had); [lia|].
    exists a. split.
    + change (walk_up (S k) h (Some id))
        with (q ← get_parent h (Some id); walk_up k h q).
      rewrite Hp. exact Ha.
    + by replace (d - Z.of_nat (S k)) with (d - 1 - Z.of_nat k) by lia.
Qed.

Lemma cursor_ok_step h t c l i f h' t' c' l' :
  cursor_ok h t c l → 0 ≤ i →
  adding_to_tree h t c l i f = Ok (h', t', c', l') → cursor_ok h' t' c' l'.
Proof.
  intros Hinv Hi Hadd.
  destruct (adding_to_tree_cases _ _ _ _ _ _ _ Hadd)
    as [(-> & -> & [= -> -> -> ->])
       |[(-> & Ht & [= -> -> -> ->])
       |[(Hi0 & -> & [= -> -> -> ->])
       |[(Hi0 & Hlt & a & Hw & [= -> -> -> ->])
       |(Hi0 & -> & p & Hp & [= -> -> -> ->])]]]].
  - right. exists (length h). split; [done|].
    eapply at_depth_root; [apply (new_Node_lookup_new h f None)|done].
  - done.
  - destruct Hinv as [->|(id & -> & Hd)]; [by left|right].
    exists (length h). split; [done|]. by apply at_depth_new.
  - destruct Hinv as [->|(id & -> & Hd)]; [by left|right].
    destruct (at_depth_walk_up h (Z.to_nat (l - i)) id l Hd) as (a' & Ha' & Hd');
      [lia|].
    rewrite Ha' in Hw. injection Hw as <-.
    exists a'. split; [done|].
    by replace (l - Z.of_nat (Z.to_nat (l - i))) with i in Hd' by lia.
  - destruct Hinv as [->|(id & -> & Hd)]; [by left|right].
    destruct (at_depth_parent h id l Hd) as (q & Hq & Hqd); [lia|].
    rewrite Hq in Hp. injection Hp as <-.
    exists (length h). split; [done|].
    replace l with (l - 1 + 1) by lia. by apply at_depth_new.
Qed.

(** Along a run on entries of non-negative depth, once the root exists the
    cursor is a node at depth [curr_lvl]. *)
Lemma run_cursor_ok fl pre st :
  run fl initial pre = Ok st → Forall (λ e : entry, 0 ≤ e.1) pre →
  cursor_ok (store st) (tree st) (curr_node st) (curr_lvl st).
Proof.
  intros Hrun Hpre.
  apply (run_invariant cursor_ok (λ e, 0 ≤ e.1)) with (fl := fl) (data := pre)
                                                     (st := initial); try done.
  - intros. eapply cursor_ok_step; eauto.
  - by left.
Qed.

Lemma reaches_builder_loop_body fl st e :
  reaches_builder fl st e = true →
  loop_body fl st e
  = ('(h, t, c, l) ← adding_to_tree (store st) (tree st) (curr_node st) (curr_lvl st)
                                    e.1 e.2;
     Ok (mkFrame h t c l (match fl with Some _ => None | None => next_index st end))).
Proof.
  unfold reaches_builder, loop_body, add_entry. destruct fl as [fl|]; [|done].
  intros [Hc Hf]%andb_prop.
  apply negb_true_iff in Hc, Hf. by rewrite Hc, Hf.
Qed.

(** ** The ascent rule *)

(** C1, as the code has it: for an entry whose depth [index] is below the
    carried level and above 0, met in a run on entries of non-negative depth
    once the root exists, [adding_to_tree] moves the cursor up exactly
    [curr_lvl - index] parent links, to the ancestor at depth [index], sets
    the level to [index] and leaves the store as it is: no node is made
    and the label of the entry is dropped. *)
Theorem ascent_repositions_cursor fl pre st index function :
  run fl initial pre = Ok st →
  Forall (λ e : entry, 0 ≤ e.1) pre →
  is_Some (tree st) →
  0 < index < curr_lvl st →
  ascends st index function.
Proof.
  intros Hrun Hpre [r Hr] [Hlo Hhi].
  destruct (run_cursor_ok fl pre st Hrun Hpre) as [Hnone|(id & Hc & Hd)];
    [congruence|].
  destruct (at_depth_walk_up (store st) (Z.to_nat (curr_lvl st - index)) id
              (curr_lvl st) Hd) as (a & Ha & Hda); [lia|].
  replace (curr_lvl st - Z.of_nat (Z.to_nat (curr_lvl st - index))) with index
    in Hda by lia.
  exists a. rewrite Hc. split; [exact Ha|]. split; [exact Hda|].
  unfold adding_to_tree.
  destruct (Z.eqb_spec index 0); [lia|].
  destruct (Z.eqb_spec index (curr_lvl st + 1)); [lia|].
  destruct (Z.ltb_spec index (curr_lvl st)); [|lia].
  by rewrite Ha.
Qed.

Lemma ascent_repositions_cursor_witness :
  ∃ st, run None initial [(0, "A"); (1, "B"); (2, "C")]%string = Ok st
        ∧ ascends st 1 "D".
Proof.
  eexists. split; [reflexivity|].
  apply (ascent_repositions_cursor None [(0, "A"); (1, "B"); (2, "C")]%string).
  - reflexivity.
  - repeat constructor; simpl; lia.
  - eexists; reflexivity.
  - simpl; lia.
Defined.

(** C1 fails at [index = 0]: after [(0, A), (1, B)] the level is 1, and an
    entry at depth 0 leaves the cursor on B at level 1 instead of moving it
    to the root. *)
Lemma ascent_to_depth_0_counterexample :
  ∃ st, run None initial [(0, "A"); (1, "B")]%string = Ok st
        ∧ is_Some (tree st)
        ∧ 0 < curr_lvl st
        ∧ adding_to_tree (store st) (tree st) (curr_node st) (curr_lvl st) 0 "C"
          = Ok (store st, tree st, Some 1%nat, 1)
        ∧ ¬ ascends st 0 "C".
Proof.
  eexists. split; [reflexivity|]. simpl.
  split; [by eexists|]. split; [lia|]. split; [reflexivity|].
  intros (a & _ & _ & Hadd). simpl in Hadd. discriminate Hadd.
Qed.

(** C10: an entry at depth 0 met once the root exists is ignored by
    [adding_to_tree], whatever the cursor and the level are: the store, the
    root, the cursor and the level come back as they were, with no ascent
    and no new node.  So does the whole frame of the unfiltered loop, and
    so do the builder's variables in the filtered loop, where only
    [next_index] may change. *)
Theorem depth_0_after_root_is_ignored h root c l ni function fl :
  adding_to_tree h (Some root) c l 0 function = Ok (h, Some root, c, l)
  ∧ loop_body None (mkFrame h (Some root) c l ni) (0, function)
    = Ok (mkFrame h (Some root) c l ni)
  ∧ ∃ ni', loop_body (Some fl) (mkFrame h (Some root) c l ni) (0, function)
           = Ok (mkFrame h (Some root) c l ni').
Proof.
  split; [reflexivity|]. split; [reflexivity|].
  unfold loop_body. cbn [fst snd next_index].
  destruct (child_of_filtered ni 0); [by eexists|].
  destruct (filtered_out fl function); by eexists.
Qed.

(** ** A skipped level *)

(** C6: an entry that reaches the builder once the root exists, in a run on
    entries of non-negative depth, and whose depth exceeds [curr_lvl + 1],
    makes [adding_to_tree] raise the ValueError whose message carries the
    label of the entry and the name of the current node; [generate_tree]
    raises it too, whatever entries follow. *)
Theorem skipped_level_raises fl pre st index function post :
  run fl initial pre = Ok st →
  Forall (λ e : entry, 0 ≤ e.1) pre →
  is_Some (tree st) →
  curr_lvl st + 1 < index →
  reaches_builder fl st (index, function) = true →
  ∃ id n,
    curr_node st = Some id ∧ store st !! id = Some n
    ∧ adding_to_tree (store st) (tree st) (curr_node st) (curr_lvl st) index function
      = Raise (ValueError (CouldntAddEntry (curr_lvl st) function index (name n)))
    ∧ generate_tree (pre ++ (index, function) :: post) fl
      = Raise (ValueError (CouldntAddEntry (curr_lvl st) function index (name n))).
Proof.
  intros Hrun Hpre [r Hr] Hlt Hreach.
  destruct (run_cursor_ok fl pre st Hrun Hpre) as [Hnone|(id & Hc & Hd)];
    [congruence|].
  pose proof (at_depth_nonneg _ _ _ Hd) as Hl.
  destruct (at_depth_get_name _ _ _ Hd) as (n & Hn & Hname).
  exists id, n. split; [done|]. split; [done|].
  assert (adding_to_tree (store st) (tree st) (curr_node st) (curr_lvl st) index function
          = Raise (ValueError (CouldntAddEntry (curr_lvl st) function index (name n))))
    as Hadd.
  { unfold adding_to_tree.
    destruct (Z.eqb_spec index 0); [lia|].
    destruct (Z.eqb_spec index (curr_lvl st + 1)); [lia|].
    destruct (Z.ltb_spec index (curr_lvl st)); [lia|].
    destruct (Z.eqb_spec index (curr_lvl st)); [lia|].
    by rewrite Hc, Hname. }
  split; [exact Hadd|].
  unfold generate_tree. rewrite run_app, Hrun. simpl.
  unfold run. simpl.
  rewrite (reaches_builder_loop_body fl st (index, function) Hreach). simpl.
  by rewrite Hadd.
Qed.

Lemma skipped_level_raises_witness :
  generate_tree ([(0, "A"); (1, "B")]%string ++ (3, "C"%string) :: [(1, "D")]%string) None
  = Raise (ValueError (CouldntAddEntry 1 "C" 3 "B")).
Proof.
  destruct (skipped_level_raises None [(0, "A"); (1, "B")]%string
              (mkFrame [mkNode "A" None [1%nat]; mkNode "B" (Some 0%nat) []]
                       (Some 0%nat) (Some 1%nat) 1 None)
              3 "C" [(1, "D")]%string)
    as (id & n & Hc & Hn & _ & Hgen).
  - reflexivity.
  - repeat constructor; simpl; lia.
  - eexists; reflexivity.
  - simpl; lia.
  - reflexivity.
  - simpl in Hc, Hn. injection Hc as <-. simpl in Hn. injection Hn as <-.
    exact Hgen.
Defined.

(** ** The examples of the specification *)

(** C2, as the code has it: on [(0, A), (1, B), (2, C), (1, D)] without
    filter the builder returns the chain A, B, C; the entry [(1, D)] makes no
    node, it moves the cursor from C up to B, at level 1. *)
Theorem ascent_example_discards_D :
  ∃ st, run None initial [(0, "A"); (1, "B"); (2, "C"); (1, "D")]%string = Ok st
        ∧ generate_tree [(0, "A"); (1, "B"); (2, "C"); (1, "D")]%string None
          = Ok (store st, tree st)
        ∧ store st = [mkNode "A" None [1%nat]; mkNode "B" (Some 0%nat) [2%nat];
                      mkNode "C" (Some 1%nat) []]
        ∧ view (store st, tree st) = Some (Rose "A" [Rose "B" [Rose "C" []]])
        ∧ get_name (store st) (curr_node st) = Ok "B"%string
        ∧ curr_lvl st = 1.
Proof. eexists. repeat split; reflexivity. Qed.

(** C2 fails: in the tree returned for that sequence B has the one child C,
    and no node of the store is named D. *)
Lemma ascent_example_counterexample :
  ∃ r, generate_tree [(0, "A"); (1, "B"); (2, "C"); (1, "D")]%string None = Ok r
       ∧ view r = Some (Rose "A" [Rose "B" [Rose "C" []]])
       ∧ tree_labels r = ["A"; "B"; "C"]%string
       ∧ ∀ n, n ∈ r.1 → name n ≠ "D"%string.
Proof.
  eexists. split; [reflexivity|]. split; [reflexivity|]. split.
  - reflexivity.
  - intros n. cbn. rewrite !elem_of_cons, elem_of_nil.
    intros [->|[->|[->|[]]]]; discriminate.
Qed.

(** C3: on [(0, A), (1, Bad), (2, C), (3, D), (1, E)] with the filter list
    [Bad], the tree returned is the root A with the single child E; the
    store holds these two nodes and no other. *)
Theorem suppression_example :
  ∃ r, generate_tree [(0, "A"); (1, "Bad"); (2, "C"); (3, "D"); (1, "E")]%string
                     (Some ["Bad"%string]) = Ok r
       ∧ view r = Some (Rose "A" [Rose "E" []])
       ∧ r.1 = [mkNode "A" None [1%nat]; mkNode "E" (Some 0%nat) []]
       ∧ tree_labels r = ["A"; "E"]%string.
Proof. eexists. repeat split; reflexivity. Qed.

(** ** The parser and the depth bound *)

(** C8, where the code departs from it: with a maximum depth of 1, a record
    line whose marker is [[  12]] is parsed, and its entry, of depth 12, is
    in the result. *)
Theorem depth_12_passes_bound_1 :
  parse_input_file [wt_line "0" "ntdll!f"; wt_line "12" "ntdll!g"] 1 []
  = Ok ([(0, "ntdll!f"); (12, "ntdll!g")]%string, ["ntdll"%string]).
Proof. reflexivity. Qed.

(** A record line of depth 2 is dropped when the maximum depth is 1, and
    parsed when it is 2 or more. *)
Lemma depth_2_line_and_bound D :
  (1 ≤ D ≤ 9)%nat →
  parse_input_file [wt_line "0" "ntdll!f"; wt_line "2" "module!func"] D []
  = if decide (D = 1%nat)
    then Ok ([(0, "ntdll!f")]%string, ["ntdll"%string])
    else Ok ([(0, "ntdll!f"); (2, "module!func")]%string, ["ntdll"; "module"]%string).
Proof.
  intros HD.
  assert (D ∈ [1; 2; 3; 4; 5; 6; 7; 8; 9]%nat) as Hin.
  { rewrite !elem_of_cons. lia. }
  rewrite !elem_of_cons, elem_of_nil in Hin.
  destruct Hin as [->|[->|[->|[->|[->|[->|[->|[->|[->|[]]]]]]]]]]; reflexivity.
Qed.

(** For a record line whose depth is one digit, the bound is the one the
    docstring of [parse_input_file] states: the line is parsed when its
    depth is at most the maximum depth, and dropped otherwise. *)
Lemma one_digit_depth_and_bound d D :
  (d ≤ 9)%nat → (1 ≤ D ≤ 9)%nat →
  (fst <$> parse_input_file [wt_line "0" "ntdll!f"; wt_line (digit_text d) "module!func"]
             D [])
  = Ok (if (d <=? D)%nat
        then [(0, "ntdll!f"%string); (Z.of_nat d, "module!func"%string)]
        else [(0, "ntdll!f"%string)]).
Proof.
  intros Hd HD.
  do 10 (destruct d as [|d]; [do 10 (destruct D as [|D]; [try lia; reflexivity|]); lia|]).
  lia.
Qed.

(** A marker with three spaces before the depth does not match the pattern:
    the line is skipped at every maximum depth. *)
Example three_space_marker_is_skipped D :
  (1 ≤ D ≤ 9)%nat →
  parse_input_file ["0:000> [   2] module!func"%string] D []
  = Raise (ValueError CouldntParseInputFile).
Proof.
  intros HD.
  do 10 (destruct D as [|D]; [try lia; reflexivity|]). lia.
Qed.

(** ** Loops and the names in the store *)

Lemma for_each_invariant {St X} (body : St → X → result St) (P : St → Prop) :
  (∀ st x st', P st → body st x = Ok st' → P st') →
  ∀ xs st st', for_each body st xs = Ok st' → P st → P st'.
Proof.
  intros Hstep. induction xs as [|x xs IH]; intros st st'; simpl.
  { by intros [= <-]. }
  destruct (body st x) as [st1|] eqn:Hb; simpl; [|done].
  intros Hrest HP. eapply IH; eauto.
Qed.

Lemma new_Node_elem h f p n :
  n ∈ (new_Node h f p).1 → name n = f ∨ ∃ n0, n0 ∈ h ∧ name n0 = name n.
Proof.
  intros (i & Hi)%list_elem_of_lookup.
  pose proof (lookup_lt_Some _ _ _ Hi) as Hlt. rewrite new_Node_length in Hlt.
  destruct (decide (i = length h)) as [->|Hne].
  - rewrite new_Node_lookup_new in Hi. injection Hi as <-. by left.
  - assert (i < length h)%nat as Hlt' by lia.
    destruct (lookup_lt_is_Some_2 h i Hlt') as [n0 Hn0].
    destruct (new_Node_lookup_old h f p i n0 Hn0) as (n' & Hn' & Hname & _).
    rewrite Hn' in Hi. injection Hi as <-.
    right. exists n0. split; [|done]. apply list_elem_of_lookup. eauto.
Qed.

(** Every node of the store of a run is named by an entry of the run. *)
Lemma run_names fl data st n :
  run fl initial data = Ok st → n ∈ store st → name n ∈ data.*2.
Proof.
  intros Hrun. revert n.
  apply (run_invariant (λ h _ _ _, ∀ n, n ∈ h → name n ∈ data.*2)
                       (λ e, e.2 ∈ data.*2)) with (fl := fl) (data := data)
                                                  (st := initial); try done.
  - intros h t c l i f h' t' c' l' HP Hf Hadd n Hn. simpl in Hf.
    destruct (adding_to_tree_store _ _ _ _ _ _ _ _ _ _ Hadd) as [->|[p ->]];
      [by apply HP|].
    apply new_Node_elem in Hn as [->|(n0 & Hn0 & <-)]; auto.
  - apply Forall_forall. intros e He. by apply list_elem_of_fmap_2.
  - intros n Hn. simpl in Hn. by apply elem_of_nil in Hn.
Qed.

(** ** Node attributes and recorded modules *)

Lemma existsb_eqb_elem (x : string) xs :
  existsb (String.eqb x) xs = true ↔ x ∈ xs.
Proof.
  rewrite existsb_exists. split.
  - intros (y & Hy & ->%String.eqb_eq). by apply list_elem_of_In.
  - intros Hx. exists x. split; [by apply list_elem_of_In|apply String.eqb_refl].
Qed.

Lemma list_index_elem x xs :
  x ∈ xs → ∃ i, list_index x xs = Ok i ∧ (i < length xs)%nat.
Proof.
  induction xs as [|y xs IH]; [by intros ?%elem_of_nil|].
  intros Hx. simpl.
  destruct (String.eqb_spec y x) as [->|Hne].
  - exists O. split; [done|]. simpl; lia.
  - apply elem_of_cons in Hx as [->|Hx]; [done|].
    destruct (IH Hx) as (i & -> & Hi). exists (S i). split; [done|]. simpl; lia.
Qed.

Lemma attribute_loop_elem ML rest m :
  m ∈ rest → m ∈ ML → ∃ att, attribute_loop ML rest m = Ok att.
Proof.
  intros Hrest HML. induction rest as [|y rest IH]; [by apply elem_of_nil in Hrest|].
  simpl. destruct (String.eqb_spec m y) as [<-|Hne].
  - destruct (list_index_elem m ML HML) as (i & -> & Hi).
    change (∃ att, (if (length colors <=? i)%nat then Ok (attributes "grey")
                    else attributes <$> item colors i) = Ok att).
    destruct (Nat.leb_spec (length colors) i) as [Hge|Hlt]; [by eexists|].
    unfold item. destruct (lookup_lt_is_Some_2 colors i Hlt) as [col ->].
    by eexists.
  - apply elem_of_cons in Hrest as [->|Hrest]; [done|]. by apply IH.
Qed.

Lemma attribute_loop_not_elem ML rest m :
  m ∉ rest → attribute_loop ML rest m = Raise (ValueError (CouldntRetrieveAttribute m)).
Proof.
  induction rest as [|y rest IH]; [done|].
  intros Hrest. apply not_elem_of_cons in Hrest as [Hne Hrest]. simpl.
  destruct (String.eqb_spec m y); [done|]. by apply IH.
Qed.

(** [determine_node_att] raises exactly when the module prefix of the node
    is not in [MODULES_LIST]; what it raises is the ValueError naming the
    prefix. *)
Lemma determine_node_att_raises ML node :
  (∃ e, determine_node_att ML node = Raise e) ↔ before_first "!" (name node) ∉ ML.
Proof.
  unfold determine_node_att. split.
  - intros [e He] Hin.
    destruct (attribute_loop_elem ML ML _ Hin Hin) as [att Hatt]. congruence.
  - intros Hnot. eexists. by apply attribute_loop_not_elem.
Qed.

Lemma adding_to_module_list_elem ML f x :
  x ∈ adding_to_module_list ML f
  ↔ x ∈ ML ∨ (x = before_first "!" f ∧ x ≠ ""%string).
Proof.
  unfold adding_to_module_list.
  destruct (String.eqb_spec (before_first "!" f) "") as [He|Hne].
  { split; [by left|]. intros [?|[-> ?]]; done. }
  destruct (existsb _ ML) eqn:Hex.
  { apply existsb_eqb_elem in Hex. split; [by left|]. by intros [?|[-> ?]]. }
  rewrite elem_of_app, list_elem_of_singleton. split.
  - intros [?| ->]; [by left|by right].
  - intros [?|[-> _]]; [by left|by right].
Qed.

Lemma parse_line_records D parsed ML line parsed' ML' :
  records parsed ML →
  parse_line D (parsed, ML) line = Ok (parsed', ML') →
  records parsed' ML'.
Proof.
  intros Hrec. unfold parse_line.
  destruct (re_search D line); [|by intros [= <- <-]].
  destruct (item (split line) 3) as [w|]; simpl; [|done].
  destruct (int _) as [index|]; simpl; [|done].
  destruct (item (split line) 4) as [function|]; simpl; [|done].
  intros [= <- <-] x.
  rewrite adding_to_module_list_elem, (Hrec x). split.
  - intros [(Hx & e & He & Hpre)|[-> Hx]].
    + split; [done|]. exists e. split; [|done]. apply elem_of_app. by left.
    + split; [done|]. exists (index, function). split; [|done].
      apply elem_of_app. right. by apply list_elem_of_singleton.
  - intros (Hx & e & He & Hpre).
    apply elem_of_app in He as [He| ->%list_elem_of_singleton].
    + left. eauto.
    + right. simpl in Hpre. by subst x.
Qed.

(** From an empty [MODULES_LIST], the parser leaves in it the module
    prefixes of the entries it returns that are not empty. *)
Lemma parse_input_file_records data D entries ML :
  parse_input_file data D [] = Ok (entries, ML) → records entries ML.
Proof.
  unfold parse_input_file.
  destruct (for_each _ _ data) as [[parsed ML0]|] eqn:Hloop; simpl; [|done].
  destruct (decide (parsed = [])); [done|]. intros [= <- <-].
  apply (for_each_invariant (parse_line D) (λ st, records st.1 st.2))
    with (xs := data) (st := ([], [])) (st' := (parsed, ML0)); try done.
  - intros [p m] line [p' m'] HP Hline. eapply parse_line_records; eauto.
  - intros x. split; [by intros ?%elem_of_nil|].
    by intros (_ & e & ?%elem_of_nil & _).
Qed.

(** C9, as the code has it: for a node of a tree built from the parsed
    entries, attribute resolution raises exactly when the module prefix of
    the node is not in the recorded list, and the prefix is in the list
    exactly when it is not empty: the resolution succeeds on every node
    whose label has a module, and raises on every node whose label has
    none. *)
Theorem unknown_module_iff_unrecorded data D entries ML fl h t n :
  parse_input_file data D [] = Ok (entries, ML) →
  generate_tree entries fl = Ok (h, t) →
  n ∈ h →
  ((∃ e, determine_node_att ML n = Raise e) ↔ before_first "!" (name n) ∉ ML)
  ∧ (before_first "!" (name n) ∈ ML ↔ before_first "!" (name n) ≠ ""%string).
Proof.
  intros Hparse Hgen Hn. split; [apply determine_node_att_raises|].
  pose proof (parse_input_file_records _ _ _ _ Hparse) as Hrec.
  unfold generate_tree in Hgen.
  destruct (run fl initial entries) as [st|] eqn:Hrun; simpl in Hgen; [|done].
  injection Hgen as <- <-.
  pose proof (run_names _ _ _ _ Hrun Hn) as Hname.
  apply list_elem_of_fmap in Hname as ([i f] & Hf & He). simpl in Hf.
  rewrite (Hrec _). split; [by intros [? _]|].
  intros Hne. split; [done|]. exists (i, f). split; [done|]. by rewrite Hf.
Qed.

Lemma unknown_module_iff_unrecorded_witness :
  ((∃ e, determine_node_att ["ntdll"%string] (mkNode "ntdll!f" None []) = Raise e)
   ↔ before_first "!" "ntdll!f" ∉ ["ntdll"%string])
  ∧ (before_first "!" "ntdll!f" ∈ ["ntdll"%string]
     ↔ before_first "!" "ntdll!f" ≠ ""%string).
Proof.
  apply (unknown_module_iff_unrecorded [wt_line "0" "ntdll!f"] 9
           [(0, "ntdll!f"%string)] ["ntdll"%string] None
           [mkNode "ntdll!f" None []] (Some 0%nat) (mkNode "ntdll!f" None [])).
  - reflexivity.
  - reflexivity.
  - apply list_elem_of_singleton. reflexivity.
Defined.

(** C9 fails for a label without module: the record line of [!func] is
    parsed, its entry becomes the root of the tree, no module is recorded,
    and the attributes of the root raise the ValueError. *)
Lemma empty_module_counterexample :
  ∃ entries ML r root node,
    parse_input_file [wt_line "0" "!func"] 9 [] = Ok (entries, ML)
    ∧ generate_tree entries None = Ok r
    ∧ r.2 = Some root ∧ r.1 !! root = Some node
    ∧ before_first "!" (name node) = ""%string
    ∧ determine_node_att ML node = Raise (ValueError (CouldntRetrieveAttribute "")).
Proof. do 5 eexists. repeat split; reflexivity. Qed.

(** ** Trees read off the store *)

Lemma to_rose_leaf h c k :
  is_leaf h c → to_rose (S k) h c = Some (Rose (name_of h c) []).
Proof.
  intros (n & Hn & Hch). simpl. unfold name_of. rewrite Hn. simpl.
  by rewrite Hch.
Qed.

Lemma flat_map_preorder_leaves h leaves :
  flat_map preorder (map (λ l, Rose (name_of h l) []) leaves) = map (name_of h) leaves.
Proof. induction leaves as [|l leaves IH]; simpl; [done|]. by rewrite IH. Qed.

Lemma preorder_plug h up : ∀ t,
  preorder (plug h t up) = path_labels h up ++ preorder t.
Proof.
  induction up as [|[p leaves] up IH]; intros t; simpl; [done|].
  rewrite IH. simpl.
  rewrite flat_map_app, flat_map_preorder_leaves. simpl.
  rewrite app_nil_r. by rewrite <- app_assoc.
Qed.

(** The tree read from the root of a path is the tree read from its start,
    plugged into the path; each frame costs one unit of fuel. *)
Lemma to_rose_plug h up : ∀ c t fuel,
  path_ok h c up → to_rose (S fuel) h c = Some t →
  to_rose (S fuel + length up) h (path_root c up) = Some (plug h t up).
Proof.
  induction up as [|[p leaves] up IH]; intros c t fuel Hok Ht.
  { simpl length. by rewrite Nat.add_0_r. }
  destruct Hok as ((n & Hn & Hch) & _ & Hleaves & _ & _ & Hup).
  cbn [length path_root plug].
  replace (S fuel + S (length up))%nat with (S (S fuel) + length up)%nat by lia.
  apply IH; [exact Hup|].
  change (to_rose (S (S fuel)) h p)
    with (n ← h !! p; ks ← mapM (to_rose (S fuel) h) (children n);
          Some (Rose (name n) ks)).
  rewrite Hn. cbn [mbind option_bind]. rewrite Hch.
  assert (mapM (to_rose (S fuel) h) (leaves ++ [c])
          = Some (map (λ l, Rose (name_of h l) []) leaves ++ [t])) as ->.
  { apply mapM_Some_2. apply Forall2_app.
    - clear -Hleaves. induction Hleaves as [|l leaves Hl _ IHl]; simpl; constructor.
      + by apply to_rose_leaf.
      + exact IHl.
    - by repeat constructor. }
  cbn [mbind option_bind]. unfold name_of. by rewrite Hn.
Qed.

Lemma path_ok_length h up : ∀ c, path_ok h c up → (length up ≤ c)%nat.
Proof.
  induction up as [|[p leaves] up IH]; intros c Hok; simpl; [lia|].
  destruct Hok as (_ & _ & _ & _ & Hlt & Hup).
  specialize (IH p Hup). lia.
Qed.

(** A path is kept by a change of the store that keeps the nodes before
    its start, and the parent of its start. *)
Lemma path_ok_frame h h' up : ∀ c,
  (∀ x, (x < c)%nat → h' !! x = h !! x) →
  get_parent h' (Some c) = get_parent h (Some c) →
  path_ok h c up → path_ok h' c up.
Proof.
  induction up as [|[p leaves] up IH]; intros c Hsame Hpar Hok; [done|].
  destruct Hok as ((n & Hn & Hch) & Hp & Hleaves & Hlt & Hpc & Hup).
  cbn [path_ok]. split; [|split; [|split; [|split; [|split]]]].
  - exists n. by rewrite Hsame.
  - by rewrite Hpar.
  - apply Forall_forall. intros l Hl.
    rewrite Forall_forall in Hleaves, Hlt.
    destruct (Hleaves l Hl) as (nl & Hnl & Hcl).
    exists nl. rewrite Hsame; [done|]. by apply Hlt.
  - exact Hlt.
  - exact Hpc.
  - apply IH; [| |exact Hup].
    + intros x Hx. apply Hsame. lia.
    + simpl. by rewrite Hsame.
Qed.

Lemma path_labels_frame h h' up : ∀ c,
  (∀ x, (x < c)%nat → name_of h' x = name_of h x) →
  path_ok h c up → path_labels h' up = path_labels h up.
Proof.
  induction up as [|[p leaves] up IH]; intros c Hsame Hok; [done|].
  destruct Hok as (_ & _ & _ & Hlt & Hpc & Hup).
  simpl. rewrite (IH p); [| |exact Hup].
  - rewrite (Hsame p Hpc). do 2 f_equal.
    apply map_ext_in. intros l Hl. apply Hsame.
    rewrite Forall_forall in Hlt. apply Hlt. by apply list_elem_of_In.
  - intros x Hx. apply Hsame. lia.
Qed.

Lemma new_Node_get_parent h f p x :
  (x < length h)%nat →
  get_parent (new_Node h f p).1 (Some x) = get_parent h (Some x).
Proof.
  intros Hx. destruct (lookup_lt_is_Some_2 h x Hx) as [n Hn].
  destruct (new_Node_lookup_old h f p x n Hn) as (n' & Hn' & _ & Hpar).
  unfold get_parent. by rewrite Hn, Hn', Hpar.
Qed.

(** What [on_spine] gives at the end of the run: the tree of the store
    reads, in pre-order, the labels read. *)
Lemma on_spine_view labels st :
  on_spine labels st →
  ∃ t, view (store st, tree st) = Some t ∧ preorder t = labels.
Proof.
  intros (c & up & Ht & Hc & Hl & Hok & Hleaf & Hlab).
  exists (plug (store st) (Rose (name_of (store st) c) []) up).
  split.
  - unfold view, tree_view. simpl. rewrite Ht.
    pose proof (path_ok_length _ _ _ Hok) as Hlen.
    destruct Hleaf as (n & Hn & Hch).
    pose proof (lookup_lt_Some _ _ _ Hn) as Hlt.
    replace (length (store st))
      with (S (length (store st) - length up - 1) + length up)%nat by lia.
    apply to_rose_plug; [exact Hok|].
    apply to_rose_leaf. by exists n.
  - rewrite preorder_plug. simpl. exact Hlab.
Qed.

(** ** Runs of descents and siblings *)

Lemma on_spine_initial function ni :
  loop_body None (mkFrame [] None None 0 ni) (0, function)
  = Ok (mkFrame [mkNode function None []] (Some 0%nat) (Some 0%nat) 0 ni)
  ∧ on_spine [function]
      (mkFrame [mkNode function None []] (Some 0%nat) (Some 0%nat) 0 ni).
Proof.
  split; [reflexivity|].
  exists 0%nat, []. repeat split. by eexists.
Qed.

Lemma on_spine_descent labels st function :
  on_spine labels st →
  ∃ st', loop_body None st (curr_lvl st + 1, function) = Ok st'
         ∧ curr_lvl st' = curr_lvl st + 1
         ∧ on_spine (labels ++ [function]) st'.
Proof.
  destruct st as [h t cn l ni].
  intros (c & up & Ht & Hc & Hl & Hok & Hleaf & Hlab).
  cbn [store tree curr_node curr_lvl] in *. subst t cn.
  exists (mkFrame (new_Node h function (Some c)).1 (Some (path_root c up))
                  (Some (length h)) (l + 1) ni).
  split; [|split; [done|]].
  { unfold loop_body, add_entry, adding_to_tree.
    cbn [fst snd store tree curr_node curr_lvl next_index].
    destruct (Z.eqb_spec (l + 1) 0); [lia|].
    destruct (Z.eqb_spec (l + 1) (l + 1)); [|lia]. reflexivity. }
  destruct Hleaf as (n & Hn & Hch).
  pose proof (lookup_lt_Some _ _ _ Hn) as Hlt.
  assert (∀ x, (x < c)%nat → (new_Node h function (Some c)).1 !! x = h !! x)
    as Hsame.
  { intros x Hx. apply new_Node_lookup_ne; [lia|]. intros [= ->]. lia. }
  exists (length h), ((c, []) :: up).
  cbn [store tree curr_node curr_lvl path_root length].
  split; [done|]. split; [done|]. split; [lia|]. split; [|split].
  - cbn [path_ok]. split; [|split; [|split; [|split; [|split]]]].
    + exists (add_child (length h) n). split.
      * by apply new_Node_lookup_parent.
      * simpl. by rewrite Hch.
    + unfold get_parent. by rewrite new_Node_lookup_new.
    + constructor.
    + constructor.
    + exact Hlt.
    + apply (path_ok_frame h); [exact Hsame| |exact Hok].
      by apply new_Node_get_parent.
  - eexists. split; [apply new_Node_lookup_new|done].
  - cbn [path_labels map].
    rewrite (path_labels_frame h _ up c); [| |exact Hok].
    + rewrite new_Node_name_of by exact Hlt.
      unfold name_of at 2. rewrite new_Node_lookup_new. simpl.
      by rewrite <- Hlab.
    + intros x Hx. apply new_Node_name_of. lia.
Qed.

Lemma on_spine_sibling labels st function :
  on_spine labels st → 0 < curr_lvl st →
  ∃ st', loop_body None st (curr_lvl st, function) = Ok st'
         ∧ curr_lvl st' = curr_lvl st
         ∧ on_spine (labels ++ [function]) st'.
Proof.
  destruct st as [h t cn l ni].
  intros (c & up & Ht & Hc & Hl & Hok & Hleaf & Hlab) Hpos.
  cbn [store tree curr_node curr_lvl] in *. subst t cn.
  destruct up as [|[p leaves] up]; [simpl in Hl; lia|].
  destruct Hok as ((n & Hn & Hch) & Hpar & Hleaves & Hlts & Hpc & Hup).
  exists (mkFrame (new_Node h function (Some p)).1 (Some (path_root p up))
                  (Some (length h)) l ni).
  split; [|split; [done|]].
  { unfold loop_body, add_entry, adding_to_tree.
    cbn [fst snd store tree curr_node curr_lvl next_index].
    destruct (Z.eqb_spec l 0); [lia|].
    destruct (Z.eqb_spec l (l + 1)); [lia|].
    destruct (Z.ltb_spec l l); [lia|].
    destruct (Z.eqb_spec l l); [|lia].
    rewrite Hpar. reflexivity. }
  destruct Hleaf as (nc & Hnc & Hcc).
  pose proof (lookup_lt_Some _ _ _ Hn) as Hplt.
  pose proof (lookup_lt_Some _ _ _ Hnc) as Hclt.
  assert (∀ x, (x < length h)%nat → x ≠ p →
               (new_Node h function (Some p)).1 !! x = h !! x) as Hsame.
  { intros x Hx Hne. apply new_Node_lookup_ne; [lia|]. congruence. }
  exists (length h), ((p, leaves ++ [c]) :: up).
  cbn [store tree curr_node curr_lvl path_root length].
  split; [done|]. split; [done|]. split; [exact Hl|]. split; [|split].
  - cbn [path_ok]. split; [|split; [|split; [|split; [|split]]]].
    + exists (add_child (length h) n). split.
      * by apply new_Node_lookup_parent.
      * simpl. by rewrite Hch.
    + unfold get_parent. by rewrite new_Node_lookup_new.
    + apply Forall_app. split.
      * apply Forall_forall. intros x Hx.
        rewrite Forall_forall in Hleaves, Hlts.
        destruct (Hleaves x Hx) as (nx & Hnx & Hcx).
        exists nx. split; [|done]. rewrite Hsame; [done| |].
        -- eapply lookup_lt_Some; eauto.
        -- intros ->. rewrite Hn in Hnx. injection Hnx as <-.
           rewrite Hch in Hcx. by destruct leaves.
      * constructor; [|constructor].
        exists nc. split; [|done]. rewrite Hsame; [done|lia|lia].
    + apply Forall_app. split.
      * eapply Forall_impl; [exact Hlts|]. intros x Hx; simpl in *. lia.
      * constructor; [lia|constructor].
    + exact Hplt.
    + apply (path_ok_frame h); [| |exact Hup].
      * intros x Hx. apply Hsame; lia.
      * by apply new_Node_get_parent.
  - eexists. split; [apply new_Node_lookup_new|done].
  - cbn [path_labels].
    rewrite (path_labels_frame h _ up p); [| |exact Hup].
    + rewrite new_Node_name_of by exact Hplt.
      unfold name_of at 3. rewrite new_Node_lookup_new. cbn [name].
      rewrite <- Hlab. cbn [path_labels]. rewrite map_app. cbn [map].
      rewrite (map_ext_in (name_of (new_Node h function (Some p)).1) (name_of h)).
      * rewrite new_Node_name_of by exact Hclt.
        rewrite <- !app_assoc. simpl. by rewrite <- !app_assoc.
      * intros x Hx. apply new_Node_name_of.
        rewrite Forall_forall in Hlts.
        apply list_elem_of_In, Hlts in Hx. lia.
    + intros x Hx. apply new_Node_name_of. lia.
Qed.

(** A run of descents and siblings below the root succeeds, and reads the
    labels of its entries onto the spine, in order. *)
Lemma on_spine_run rest : ∀ labels st,
  on_spine labels st →
  descents_or_siblings_below (curr_lvl st) rest = true →
  ∃ st', run None st rest = Ok st' ∧ on_spine (labels ++ rest.*2) st'.
Proof.
  induction rest as [|[i f] rest IH]; intros labels st Hsp Hadj.
  { exists st. split; [done|]. simpl. by rewrite app_nil_r. }
  simpl in Hadj. apply andb_prop in Hadj as [Hstep Hrest].
  assert (∃ st1, loop_body None st (i, f) = Ok st1 ∧ curr_lvl st1 = i
                 ∧ on_spine (labels ++ [f]) st1) as (st1 & Hbody & Hlvl & Hsp1).
  { apply orb_prop in Hstep as [->%Z.eqb_eq|[->%Z.eqb_eq Hpos%Z.ltb_lt]%andb_prop].
    - by apply on_spine_descent.
    - by apply on_spine_sibling. }
  rewrite <- Hlvl in Hrest.
  destruct (IH _ _ Hsp1 Hrest) as (st' & Hrun & Hsp').
  exists st'. split.
  - unfold run in *. cbn [for_each]. rewrite Hbody. exact Hrun.
  - simpl. by rewrite <- app_assoc in Hsp'.
Qed.

Lemma valid_adjacency_run data :
  valid_adjacency_below_root data = true →
  ∃ st, run None initial data = Ok st ∧ on_spine data.*2 st.
Proof.
  destruct data as [|[i f] rest]; [done|]. simpl.
  intros [->%Z.eqb_eq Hrest]%andb_prop.
  destruct (on_spine_initial f None) as [Hbody Hsp].
  destruct (on_spine_run rest [f] _ Hsp Hrest) as (st & Hrun & Hsp').
  exists st. split; [|exact Hsp'].
  unfold run in *. simpl. exact Hrun.
Qed.

(** ** The round trip *)

(** C5, as the code has it: for a sequence that starts at depth 0 and
    whose later entries are descents or siblings at a depth of 1 or more,
    the unfiltered builder returns a tree whose labels in pre-order are the
    labels of the entries, in order. *)
Theorem preorder_round_trip data :
  valid_adjacency_below_root data = true →
  ∃ r t, generate_tree data None = Ok r
         ∧ view r = Some t
         ∧ preorder t = data.*2
         ∧ tree_labels r = data.*2.
Proof.
  intros Hvalid.
  destruct (valid_adjacency_run data Hvalid) as (st & Hrun & Hsp).
  destruct (on_spine_view _ _ Hsp) as (t & Hview & Hpre).
  exists (store st, tree st), t.
  unfold generate_tree. rewrite Hrun. split; [done|]. split; [exact Hview|].
  split; [exact Hpre|]. unfold tree_labels. by rewrite Hview.
Qed.

Lemma preorder_round_trip_witness :
  ∃ r t, generate_tree [(0, "A"); (1, "B"); (1, "C"); (2, "D"); (2, "E")]%string None
         = Ok r
         ∧ view r = Some t
         ∧ preorder t = ["A"; "B"; "C"; "D"; "E"]%string
         ∧ tree_labels r = ["A"; "B"; "C"; "D"; "E"]%string.
Proof.
  apply (preorder_round_trip [(0, "A"); (1, "B"); (1, "C"); (2, "D"); (2, "E")]%string).
  reflexivity.
Defined.

(** C5 fails on a sibling at depth 0: [(0, A), (0, B)] starts at depth 0 and
    its second entry is at the carried level, yet the tree returned is the
    root A alone. *)
Lemma sibling_of_root_counterexample :
  strictly_valid_adjacency [(0, "A"); (0, "B")]%string = true
  ∧ ∃ r, generate_tree [(0, "A"); (0, "B")]%string None = Ok r
         ∧ view r = Some (Rose "A" [])
         ∧ tree_labels r = ["A"%string]
         ∧ tree_labels r ≠ [(0, "A"); (0, "B")]%string.*2.
Proof.
  split; [reflexivity|]. eexists. split; [reflexivity|].
  split; [reflexivity|]. split; [reflexivity|]. discriminate.
Qed.

(** ** The labels of a returned tree *)

(** A label read off the store is the name of one of its nodes. *)
Lemma to_rose_labels h fuel : ∀ id t l,
  to_rose fuel h id = Some t → l ∈ preorder t → ∃ n, n ∈ h ∧ name n = l.
Proof.
  induction fuel as [|fuel IH]; intros id t l; [done|].
  cbn [to_rose]. destruct (h !! id) as [n|] eqn:Hn; [|done].
  cbn [mbind option_bind].
  destruct (mapM (to_rose fuel h) (children n)) as [ks|] eqn:Hks; [|done].
  cbn [mbind option_bind]. intros [= <-]. cbn [preorder].
  intros [->|Hl]%elem_of_cons.
  - exists n. split; [|done]. apply list_elem_of_lookup. eauto.
  - apply list_elem_of_In, in_flat_map in Hl as (k & Hk & Hlk).
    apply list_elem_of_In, list_elem_of_lookup in Hk as [j Hj].
    apply mapM_Some_1 in Hks.
    destruct (Forall2_lookup_r _ _ _ _ _ Hks Hj) as (c & _ & Hc).
    apply (IH c k l Hc). by apply list_elem_of_In.
Qed.

(** In the store of a run every tree can be read with fuel for its nodes. *)
Lemma to_rose_total h :
  wf_store h →
  ∀ fuel id, (id < length h)%nat → (length h - id ≤ fuel)%nat →
             is_Some (to_rose fuel h id).
Proof.
  intros Hwf. induction fuel as [|fuel IH]; intros id Hid Hfuel; [lia|].
  destruct (lookup_lt_is_Some_2 h id Hid) as [n Hn].
  cbn [to_rose]. rewrite Hn. cbn [mbind option_bind].
  destruct (mapM_is_Some_2 (to_rose fuel h) (children n)) as [ks ->].
  - eapply Forall_impl; [exact (Hwf id n Hn)|].
    intros c Hc. simpl in *. apply IH; lia.
  - by eexists.
Qed.

Lemma adding_to_tree_root h t c l i f h' t' c' l' :
  adding_to_tree h t c l i f = Ok (h', t', c', l') →
  (t' = t ∧ (h' = h ∨ ∃ p, h' = (new_Node h f p).1))
  ∨ (t' = Some (length h) ∧ h' = (new_Node h f None).1).
Proof.
  intros Hadd.
  destruct (adding_to_tree_cases _ _ _ _ _ _ _ Hadd)
    as [(_ & _ & Hr)|[(_ & _ & Hr)|[(_ & _ & Hr)|[(_ & _ & a & _ & Hr)
       |(_ & _ & p & _ & Hr)]]]].
  - right. split; congruence.
  - left. split; [|left]; congruence.
  - left. split; [|right; exists c]; congruence.
  - left. split; [|left]; congruence.
  - left. split; [|right; exists p]; congruence.
Qed.

(** The store of a run is well formed, and its root is one of its nodes. *)
Lemma run_wf fl data st :
  run fl initial data = Ok st →
  wf_store (store st) ∧ ∀ root, tree st = Some root → (root < length (store st))%nat.
Proof.
  intros Hrun.
  apply (run_invariant
           (λ h t _ _, wf_store h ∧ ∀ root, t = Some root → (root < length h)%nat)
           (λ _, True)) with (fl := fl) (data := data) (st := initial); try done.
  - intros h t c l i f h' t' c' l' [Hwf Hroot] _ Hadd.
    destruct (adding_to_tree_root _ _ _ _ _ _ _ _ _ _ Hadd)
      as [[-> [->|[p ->]]]|[-> ->]].
    + done.
    + split; [by apply new_Node_wf|].
      intros root Hr. rewrite new_Node_length. specialize (Hroot root Hr). lia.
    + split; [by apply new_Node_wf|].
      intros root [= <-]. rewrite new_Node_length. lia.
  - by apply Forall_true.
Qed.

(** When [generate_tree] returns a root, its tree can be read. *)
Lemma generate_tree_view data fl r :
  generate_tree data fl = Ok r → is_Some r.2 → is_Some (view r).
Proof.
  unfold generate_tree.
  destruct (run fl initial data) as [st|] eqn:Hrun; simpl; [|done].
  intros [= <-] [root Hroot]. simpl in Hroot.
  destruct (run_wf _ _ _ Hrun) as [Hwf Hlt].
  unfold view, tree_view. simpl. rewrite Hroot.
  apply to_rose_total; [exact Hwf|by apply Hlt|lia].
Qed.

(** The labels of a returned tree are labels of the entries. *)
Lemma generate_tree_labels data fl r :
  generate_tree data fl = Ok r → tree_labels r ⊆ data.*2.
Proof.
  unfold generate_tree.
  destruct (run fl initial data) as [st|] eqn:Hrun; simpl; [|done].
  intros [= <-] l. unfold tree_labels, view, tree_view. simpl.
  destruct (tree st) as [root|]; [|by intros ?%elem_of_nil].
  destruct (to_rose _ _ root) as [t|] eqn:Ht; [|by intros ?%elem_of_nil].
  intros Hl. destruct (to_rose_labels _ _ _ _ _ Ht Hl) as (n & Hn & <-).
  by apply (run_names fl data st).
Qed.

(** The unfiltered tree of a sequence of descents and siblings below the
    root has the labels of the entries. *)
Lemma valid_adjacency_labels data r :
  valid_adjacency_below_root data = true →
  generate_tree data None = Ok r → tree_labels r = data.*2.
Proof.
  intros Hvalid.
  destruct (valid_adjacency_run data Hvalid) as (st & Hrun & Hsp).
  destruct (on_spine_view _ _ Hsp) as (t & Hview & Hpre).
  unfold generate_tree. rewrite Hrun. intros [= <-].
  unfold tree_labels. by rewrite Hview.
Qed.

(** ** Filtering and the labels *)

(** C4, as the code has it: the labels of the filtered tree are labels of
    the entries; they are labels of the unfiltered tree whenever that tree
    has a node for every label of the entries, as it has for a sequence that
    starts at depth 0 and goes on with descents and siblings below the
    root.  The filtered tree these labels are read from can be read
    whenever a root is returned. *)
Theorem filtered_labels_subset data fl ru rf :
  generate_tree data None = Ok ru →
  generate_tree data (Some fl) = Ok rf →
  tree_labels rf ⊆ data.*2
  ∧ (data.*2 ⊆ tree_labels ru → tree_labels rf ⊆ tree_labels ru)
  ∧ (valid_adjacency_below_root data = true → tree_labels rf ⊆ tree_labels ru)
  ∧ (is_Some rf.2 → is_Some (view rf)).
Proof.
  intros Hu Hf.
  pose proof (generate_tree_labels _ _ _ Hf) as Hsub.
  split; [exact Hsub|]. split; [|split].
  - intros Hall l Hl. by apply Hall, Hsub.
  - intros Hvalid l Hl.
    rewrite (valid_adjacency_labels data ru Hvalid Hu). by apply Hsub.
  - by apply (generate_tree_view data (Some fl)).
Qed.

Lemma filtered_labels_subset_witness :
  ∃ ru rf,
    generate_tree [(0, "A"); (1, "Bad"); (2, "C"); (2, "D"); (2, "E")]%string None
    = Ok ru
    ∧ generate_tree [(0, "A"); (1, "Bad"); (2, "C"); (2, "D"); (2, "E")]%string
                    (Some ["D"%string]) = Ok rf
    ∧ tree_labels rf = ["A"; "Bad"; "C"; "E"]%string
    ∧ tree_labels rf ⊆ tree_labels ru.
Proof.
  do 2 eexists. split; [reflexivity|]. split; [reflexivity|]. split; [reflexivity|].
  refine (proj1 (proj2 (proj2
            (filtered_labels_subset
               [(0, "A"); (1, "Bad"); (2, "C"); (2, "D"); (2, "E")]%string
               ["D"%string] _ _ _ _))) _); reflexivity.
Defined.

(** C4 fails where the unfiltered pass drops a label that the filtered pass
    keeps: on [(0, A), (1, Bad), (2, C), (1, D)] the unfiltered builder takes
    [(1, D)] for an ascent and makes no node, while with the filter list
    [Bad] the entry is a descent from A and D becomes a node. *)
Lemma filtered_label_outside_unfiltered_counterexample :
  ∃ ru rf,
    generate_tree [(0, "A"); (1, "Bad"); (2, "C"); (1, "D")]%string None = Ok ru
    ∧ generate_tree [(0, "A"); (1, "Bad"); (2, "C"); (1, "D")]%string
                    (Some ["Bad"%string]) = Ok rf
    ∧ tree_labels ru = ["A"; "Bad"; "C"]%string
    ∧ tree_labels rf = ["A"; "D"]%string
    ∧ ¬ tree_labels rf ⊆ tree_labels ru.
Proof.
  do 2 eexists. split; [reflexivity|]. split; [reflexivity|].
  split; [reflexivity|]. split; [reflexivity|].
  intros Hsub. specialize (Hsub "D"%string). cbn in Hsub.
  rewrite !elem_of_cons, !elem_of_nil in Hsub.
  destruct Hsub as [H|[H|[H|[]]]]; [by right; left|discriminate..].
Qed.

(** ** References stay inside the store *)

Lemma new_Node_parents_ok h f p :
  parents_ok h → valid_ref h p → parents_ok (new_Node h f p).1.
Proof.
  intros Hpar Hp id n Hid q Hq. rewrite new_Node_length.
  pose proof (lookup_lt_Some _ _ _ Hid) as Hlt. rewrite new_Node_length in Hlt.
  destruct (decide (id = length h)) as [->|Hne].
  - rewrite new_Node_lookup_new in Hid. injection Hid as <-.
    simpl in Hq. specialize (Hp q Hq). lia.
  - assert (id < length h)%nat as Hlt' by lia.
    destruct (lookup_lt_is_Some_2 h id Hlt') as [n0 Hn0].
    destruct (new_Node_lookup_old h f p id n0 Hn0) as (n' & Hn' & _ & Hpn).
    rewrite Hn' in Hid. injection Hid as <-.
    rewrite Hpn in Hq. specialize (Hpar id n0 Hn0 q Hq). lia.
Qed.

Lemma get_parent_valid h c :
  parents_ok h → valid_ref h c →
  get_parent h c = Raise AttributeError
  ∨ ∃ p, get_parent h c = Ok p ∧ valid_ref h p.
Proof.
  intros Hpar Hc. destruct c as [id|]; [|by left]. right.
  destruct (lookup_lt_is_Some_2 h id (Hc id eq_refl)) as [n Hn].
  exists (parent n). unfold get_parent. rewrite Hn. split; [done|].
  by apply (Hpar id n).
Qed.

Lemma get_name_valid h c :
  valid_ref h c →
  get_name h c = Raise AttributeError ∨ ∃ nm, get_name h c = Ok nm.
Proof.
  intros Hc. destruct c as [id|]; [|by left]. right.
  destruct (lookup_lt_is_Some_2 h id (Hc id eq_refl)) as [n Hn].
  exists (name n). unfold get_name. by rewrite Hn.
Qed.

Lemma walk_up_valid h k : ∀ c,
  parents_ok h → valid_ref h c →
  walk_up k h c = Raise AttributeError
  ∨ ∃ a, walk_up k h c = Ok a ∧ valid_ref h a.
Proof.
  induction k as [|k IH]; intros c Hpar Hc; [right; by exists c|].
  cbn [walk_up].
  destruct (get_parent_valid h c Hpar Hc) as [->|(p & -> & Hp)]; [by left|].
  by apply IH.
Qed.

Lemma refs_ok_step h t c l i f h' t' c' l' :
  refs_ok h t c l →
  adding_to_tree h t c l i f = Ok (h', t', c', l') → refs_ok h' t' c' l'.
Proof.
  intros [Hc Hpar] Hadd.
  assert (∀ p, valid_ref (new_Node h f p).1 (Some (length h))) as Hnew.
  { intros p id [= <-]. rewrite new_Node_length. lia. }
  destruct (adding_to_tree_cases _ _ _ _ _ _ _ Hadd)
    as [(_ & _ & Hr)|[(_ & _ & Hr)|[(_ & _ & Hr)|[(_ & _ & a & Ha & Hr)
       |(_ & _ & p & Hp & Hr)]]]].
  - assert (h' = (new_Node h f None).1 ∧ c' = Some (length h)) as [-> ->]
      by (split; congruence).
    split; [apply Hnew|]. by apply new_Node_parents_ok.
  - assert (h' = h ∧ c' = c) as [-> ->] by (split; congruence). by split.
  - assert (h' = (new_Node h f c).1 ∧ c' = Some (length h)) as [-> ->]
      by (split; congruence).
    split; [apply Hnew|]. by apply new_Node_parents_ok.
  - assert (h' = h ∧ c' = a) as [-> ->] by (split; congruence).
    split; [|done].
    destruct (walk_up_valid h (Z.to_nat (l - i)) c Hpar Hc) as [Hw|(a' & Ha' & Hv)];
      [congruence|].
    assert (a = a') as -> by congruence. exact Hv.
  - assert (h' = (new_Node h f p).1 ∧ c' = Some (length h)) as [-> ->]
      by (split; congruence).
    split; [apply Hnew|]. apply new_Node_parents_ok; [done|].
    destruct (get_parent_valid h c Hpar Hc) as [Hw|(p' & Hp' & Hv)]; [congruence|].
    assert (p = p') as -> by congruence. exact Hv.
Qed.

Lemma adding_to_tree_no_dangling h t c l i f :
  refs_ok h t c l → adding_to_tree h t c l i f ≠ Raise DanglingReference.
Proof.
  intros [Hc Hpar]. unfold adding_to_tree.
  destruct (i =? 0); [by destruct t|].
  destruct (i =? l + 1); [done|].
  destruct (i <? l).
  { destruct (walk_up_valid h (Z.to_nat (l - i)) c Hpar Hc) as [->|(a & -> & _)];
      done. }
  destruct (i =? l).
  { destruct (get_parent_valid h c Hpar Hc) as [->|(p & -> & _)]; done. }
  destruct (get_name_valid h c Hc) as [->|(nm & ->)]; done.
Qed.

(** An exception of a run is one that [adding_to_tree] raised on the
    variables some entries led to. *)
Lemma run_raises fl data : ∀ st e,
  run fl st data = Raise e →
  ∃ pre st1 i f,
    run fl st pre = Ok st1
    ∧ adding_to_tree (store st1) (tree st1) (curr_node st1) (curr_lvl st1) i f
      = Raise e.
Proof.
  unfold run. induction data as [|[i f] data IH]; intros st e; [done|].
  cbn [for_each]. destruct (loop_body fl st (i, f)) as [st1|e1] eqn:Hbody.
  - intros Hrest. destruct (IH st1 e Hrest) as (pre & st2 & i2 & f2 & Hpre & Hadd).
    exists ((i, f) :: pre), st2, i2, f2. split; [|exact Hadd].
    cbn [for_each]. by rewrite Hbody.
  - intros [= ->]. exists [], st, i, f. split; [done|].
    revert Hbody. unfold loop_body, add_entry. cbn [fst snd].
    destruct fl as [fl|].
    + destruct (child_of_filtered _ _); [done|].
      destruct (filtered_out _ _); [done|].
      cbn [store tree curr_node curr_lvl with_next_index].
      destruct (adding_to_tree _ _ _ _ _ _) as [[[[? ?] ?] ?]|]; [done|].
      by intros [= ->].
    + destruct (adding_to_tree _ _ _ _ _ _) as [[[[? ?] ?] ?]|]; [done|].
      by intros [= ->].
Qed.

(** No run reads a reference that is outside the store. *)
Lemma generate_tree_no_dangling data fl :
  generate_tree data fl ≠ Raise DanglingReference.
Proof.
  unfold generate_tree.
  destruct (run fl initial data) as [st|e] eqn:Hrun; [done|].
  cbn [mbind result_bind]. intros [= ->].
  destruct (run_raises _ _ _ _ Hrun) as (pre & st1 & i & f & Hpre & Hadd).
  apply (adding_to_tree_no_dangling _ _ _ _ _ _) in Hadd; [done|].
  apply (run_invariant refs_ok (λ _, True)) with (fl := fl) (data := pre)
                                                (st := initial); try done.
  - intros. eapply refs_ok_step; eauto.
  - by apply Forall_true.
Qed.

(** ** The string functions on sample texts *)

Example split_record_line :
  split (wt_line "12" "ntdll!g") = ["3"; "0"; "["; "12]"; "ntdll!g"]%string.
Proof. reflexivity. Qed.

Example int_literals :
  int "12" = Ok 12 ∧ int "-3" = Ok (-3) ∧ int "1_0" = Ok 10 ∧ int "007" = Ok 7
  ∧ int "" = Raise (ValueError (InvalidLiteral ""))
  ∧ int "1__0" = Raise (ValueError (InvalidLiteral "1__0"))
  ∧ int "+" = Raise (ValueError (InvalidLiteral "+")).
Proof. repeat split; reflexivity. Qed.

Example find_substrings :
  find "abc" "" = 0 ∧ find "abc" "bc" = 1 ∧ find "abc" "x" = -1.
Proof. repeat split; reflexivity. Qed.

Example re_search_markers :
  re_search 1 (wt_line "12" "m!f") = true
  ∧ re_search 1 (wt_line "2" "m!f") = false
  ∧ re_search 9 ("    3     0 [ 12] m!f" +:+ LF) = false
  ∧ re_search 9 ("x [  0] a" +:+ LF +:+ "b") = false.
Proof. repeat split; reflexivity. Qed.

(** ** The first entry *)

(** *** A run behind the nodes of an earlier one *)

Section shift.
Variable old : heap.

Lemma shift_store_lookup h id :
  shift_store old h !! shift_ref (length old) id = shift_node (length old) <$> h !! id.
Proof.
  unfold shift_store, shift_ref. rewrite lookup_app_r by lia.
  replace (length old + id - length old)%nat with id by lia.
  apply list_lookup_fmap.
Qed.

Lemma new_Node_shift h f (p : option ref) :
  new_Node (shift_store old h) f (shift_ref (length old) <$> p)
  = (shift_store old (new_Node h f p).1, shift_ref (length old) (new_Node h f p).2).
Proof.
  unfold new_Node, shift_store, shift_ref. cbn [fst snd].
  rewrite length_app, length_fmap, fmap_app, app_assoc. f_equal. f_equal.
  destruct p as [q|]; [|done]. cbn [fmap option_fmap option_map].
  rewrite alter_app_r. f_equal. symmetry. apply list_fmap_alter.
  apply Forall_forall. intros n _. unfold shift_node, add_child. cbn [name parent children].
  by rewrite fmap_app.
Qed.

Lemma get_parent_shift h (c : option ref) :
  get_parent (shift_store old h) (shift_ref (length old) <$> c)
  = (fmap (shift_ref (length old)) : option ref → option ref) <$> get_parent h c.
Proof.
  destruct c as [id|]; [|done]. cbn [fmap option_fmap option_map get_parent].
  rewrite shift_store_lookup. by destruct (h !! id).
Qed.

Lemma get_name_shift h (c : option ref) :
  get_name (shift_store old h) (shift_ref (length old) <$> c) = get_name h c.
Proof.
  destruct c as [id|]; [|done]. cbn [fmap option_fmap option_map get_name].
  rewrite shift_store_lookup. by destruct (h !! id).
Qed.

Lemma walk_up_shift h k : ∀ c : option ref,
  walk_up k (shift_store old h) (shift_ref (length old) <$> c)
  = (fmap (shift_ref (length old)) : option ref → option ref) <$> walk_up k h c.
Proof.
  induction k as [|k IH]; intros c; [done|].
  cbn [walk_up]. rewrite get_parent_shift.
  destruct (get_parent h c) as [p|]; [|done]. apply IH.
Qed.

(** [adding_to_tree] does behind the nodes of [old] what it does without
    them. *)
Lemma adding_to_tree_shift h (t c : option ref) l i f :
  adding_to_tree (shift_store old h) (shift_ref (length old) <$> t)
                 (shift_ref (length old) <$> c) l i f
  = (λ r : heap * option ref * option ref * Z,
       (shift_store old r.1.1.1, shift_ref (length old) <$> r.1.1.2,
        shift_ref (length old) <$> r.1.2, r.2))
    <$> adding_to_tree h t c l i f.
Proof.
  unfold adding_to_tree.
  destruct (i =? 0).
  { destruct t as [root|]; [done|].
    pose proof (new_Node_shift h f None) as Hnew.
    cbn [fmap option_fmap option_map] in *. rewrite Hnew.
    by destruct (new_Node h f None). }
  destruct (i =? l + 1).
  { rewrite new_Node_shift. by destruct (new_Node h f c). }
  destruct (i <? l).
  { rewrite walk_up_shift. by destruct (walk_up _ h c). }
  destruct (i =? l).
  { rewrite get_parent_shift. destruct (get_parent h c) as [p|]; [|done].
    cbn [fmap result_fmap mbind result_bind].
    rewrite new_Node_shift. by destruct (new_Node h f p). }
  rewrite get_name_shift. by destruct (get_name h c).
Qed.

Lemma loop_body_shift fl st e :
  loop_body fl (shift_frame old st) e = shift_frame old <$> loop_body fl st e.
Proof.
  assert (∀ s i f, add_entry (shift_frame old s) i f = shift_frame old <$> add_entry s i f)
    as Hadd.
  { intros s i f. unfold add_entry, shift_frame. cbn [store tree curr_node curr_lvl next_index].
    rewrite adding_to_tree_shift.
    by destruct (adding_to_tree _ _ _ _ i f) as [[[[h t] c] l]|]. }
  unfold loop_body. destruct fl as [fl|]; [|apply Hadd].
  cbn [shift_frame next_index].
  destruct (child_of_filtered _ _); [done|].
  destruct (filtered_out _ _); [done|].
  apply (Hadd (with_next_index st None)).
Qed.

Lemma run_shift fl data : ∀ st,
  run fl (shift_frame old st) data = shift_frame old <$> run fl st data.
Proof.
  unfold run. induction data as [|e data IH]; intros st; [done|].
  cbn [for_each]. rewrite loop_body_shift.
  destruct (loop_body fl st e) as [st1|]; [|done]. apply IH.
Qed.

Lemma to_rose_shift h fuel : ∀ id,
  to_rose fuel (shift_store old h) (shift_ref (length old) id) = to_rose fuel h id.
Proof.
  induction fuel as [|fuel IH]; intros id; [done|].
  cbn [to_rose]. rewrite shift_store_lookup.
  destruct (h !! id) as [n|]; [|done].
  cbn [fmap option_fmap option_map mbind option_bind shift_node children name].
  assert (mapM (to_rose fuel (shift_store old h)) (shift_ref (length old) <$> children n)
          = mapM (to_rose fuel h) (children n)) as ->; [|done].
  induction (children n) as [|k ks IHks]; [done|].
  cbn [fmap list_fmap mapM]. change (list_fmap _ _ ?f ks) with (f <$> ks).
  by rewrite IH, IHks.
Qed.

End shift.

(** More fuel reads the same tree. *)
Lemma to_rose_fuel h fuel : ∀ fuel' id t,
  to_rose fuel h id = Some t → (fuel ≤ fuel')%nat → to_rose fuel' h id = Some t.
Proof.
  induction fuel as [|fuel IH]; intros fuel' id t; [done|].
  destruct fuel' as [|fuel']; [lia|]. intros Ht Hle.
  cbn [to_rose] in *. destruct (h !! id) as [n|]; [|done].
  cbn [mbind option_bind] in *.
  destruct (mapM (to_rose fuel h) (children n)) as [ks|] eqn:Hks; [|done].
  assert (mapM (to_rose fuel' h) (children n) = Some ks) as ->; [|done].
  apply mapM_Some. apply mapM_Some in Hks.
  eapply Forall2_impl; [exact Hks|]. intros c k Hc. apply IH; [done|lia].
Qed.

(** *** The run before the root *)

(** The root, once made, stays the root. *)
Lemma run_keeps_root fl data st st' root :
  run fl st data = Ok st' → tree st = Some root → tree st' = Some root.
Proof.
  intros Hrun Hroot.
  apply (run_invariant (λ _ t _ _, t = Some root) (λ _, True))
    with (fl := fl) (data := data) (st := st); try done.
  - intros h t c l i f h' t' c' l' -> _ Hadd.
    destruct (adding_to_tree_cases _ _ _ _ _ _ _ Hadd)
      as [(_ & ? & _)|[(_ & _ & Hr)|[(_ & _ & Hr)|[(_ & _ & a & _ & Hr)
         |(_ & _ & p & _ & Hr)]]]]; congruence.
  - by apply Forall_true.
Qed.

Lemma before_root_step st i f :
  before_root st → 1 ≤ i ≤ curr_lvl st + 1 →
  ∃ st', loop_body None st (i, f) = Ok st' ∧ before_root st' ∧ curr_lvl st' = i.
Proof.
  destruct st as [h t c l ni]. intros (Ht & Hni & id & Hc & Hd) Hi.
  cbn [tree curr_node curr_lvl store next_index] in *. subst t ni c.
  unfold loop_body, add_entry, adding_to_tree.
  cbn [fst snd store tree curr_node curr_lvl next_index].
  destruct (Z.eqb_spec i 0) as [?|_]; [lia|].
  destruct (Z.eqb_spec i (l + 1)) as [->|Hi1].
  { destruct (new_Node h f (Some id)) as [h' n] eqn:Hnew.
    cbn [mbind result_bind]. eexists. split; [done|]. split; [|done].
    split; [done|]. split; [done|]. exists n. split; [done|].
    cbn [store curr_lvl].
    assert (h' = (new_Node h f (Some id)).1 ∧ n = length h) as [-> ->].
    { rewrite Hnew. split; [done|]. by rewrite <- (new_Node_snd h f (Some id)), Hnew. }
    replace (l + 1 - 1) with (l - 1 + 1) by lia. by apply at_depth_new. }
  destruct (Z.ltb_spec i l) as [Hlt|Hge].
  { destruct (at_depth_walk_up h (Z.to_nat (l - i)) id (l - 1) Hd) as (a & Ha & Hda);
      [lia|].
    rewrite Ha. cbn [mbind result_bind]. eexists. split; [done|]. split; [|done].
    split; [done|]. split; [done|]. exists a. split; [done|].
    cbn [store curr_lvl].
    by replace (l - 1 - Z.of_nat (Z.to_nat (l - i))) with (i - 1) in Hda by lia. }
  assert (i = l) as -> by lia. rewrite Z.eqb_refl.
  destruct (at_depth_get_name h id (l - 1) Hd) as (n & Hn & _).
  cbn [get_parent]. rewrite Hn. cbn [mbind result_bind].
  destruct (new_Node h f (parent n)) as [h' k] eqn:Hnew.
  cbn [mbind result_bind]. eexists. split; [done|]. split; [|done].
  split; [done|]. split; [done|]. exists k. split; [done|].
  cbn [store curr_lvl].
  assert (h' = (new_Node h f (parent n)).1 ∧ k = length h) as [-> ->].
  { rewrite Hnew. split; [done|]. by rewrite <- (new_Node_snd h f (parent n)), Hnew. }
  destruct (parent n) as [q|] eqn:Hq.
  - destruct (at_depth_parent h id (l - 1) Hd) as (q' & Hq' & Hdq).
    { destruct Hd as [? n' Hn' Hp'|]; [congruence|]. pose proof (at_depth_nonneg _ _ _ Hd). lia. }
    cbn [get_parent] in Hq'. rewrite Hn, Hq in Hq'. injection Hq' as <-.
    replace (l - 1) with (l - 1 - 1 + 1) by lia. by apply at_depth_new.
  - assert (l - 1 = 0) as ->.
    { destruct Hd as [|? n' p d Hn' Hp' _]; [done|congruence]. }
    eapply at_depth_root; [apply (new_Node_lookup_new h f None)|done].
Qed.

Lemma before_root_run rest : ∀ st,
  before_root st → steps_before_root (curr_lvl st) rest = true →
  ∃ st', run None st rest = Ok st' ∧ before_root st'.
Proof.
  induction rest as [|[i f] rest IH]; intros st Hst Hsteps.
  { by exists st. }
  cbn [steps_before_root fst] in Hsteps.
  apply andb_true_iff in Hsteps as [[Hi1 Hi2]%andb_true_iff Hrest].
  destruct (before_root_step st i f Hst) as (st1 & Hbody & Hst1 & Hl); [lia|].
  destruct (IH st1 Hst1) as (st' & Hrun & Hst'); [by rewrite Hl|].
  exists st'. split; [|done].
  unfold run in *. cbn [for_each]. by rewrite Hbody.
Qed.

(** A first entry at another depth than 0 or 1 stops the run: an attribute
    of [None] is read. *)
Lemma first_entry_other_depth index function post :
  index ≠ 0 → index ≠ 1 →
  generate_tree ((index, function) :: post) None = Raise AttributeError.
Proof.
  intros H0 H1.
  assert (adding_to_tree [] None None 0 index function = Raise AttributeError) as Hadd.
  { unfold adding_to_tree.
    destruct (Z.eqb_spec index 0); [lia|].
    destruct (Z.eqb_spec index (0 + 1)); [lia|].
    destruct (Z.ltb_spec index 0) as [Hneg|Hpos].
    - destruct (Z.to_nat (0 - index)) as [|k] eqn:Hk; [lia|]. reflexivity.
    - destruct (Z.eqb_spec index 0); [lia|]. reflexivity. }
  unfold generate_tree, run. cbn [for_each]. unfold loop_body, add_entry.
  cbn [fst snd store tree curr_node curr_lvl initial].
  by rewrite Hadd.
Qed.

(** C7, as the code has it: a first entry at depth 0 makes the root.  A
    first entry at depth 1 is accepted without any diagnostic: a node
    without parent is made, the cursor is set on it at level 1 and no root
    is set.  While the entries that follow are at depth 1 or more and none
    skips a level, nothing is raised and no root is set, and a run that ends
    there returns no tree.  An entry at depth 0 that comes next makes the
    root, and from it on the run does what it does when it starts at that
    entry: it raises the same exception, or it returns, silently, the same
    tree, rooted at the node of that entry. *)
Theorem first_entry_depth function pre :
  adding_to_tree [] None None 0 0 function
  = Ok ([mkNode function None []], Some 0%nat, Some 0%nat, 0)
  ∧ adding_to_tree [] None None 0 1 function
    = Ok ([mkNode function None []], None, Some 0%nat, 1)
  ∧ (steps_before_root 1 pre = true →
     ∃ st, run None initial ((1, function) :: pre) = Ok st
           ∧ tree st = None
           ∧ generate_tree ((1, function) :: pre) None = Ok (store st, None)
           ∧ ∀ root_name post,
               match generate_tree ((0, root_name) :: post) None with
               | Ok r =>
                   ∃ r', generate_tree (((1, function) :: pre) ++ (0, root_name) :: post)
                                       None = Ok r'
                         ∧ r'.2 = Some (length (store st))
                         ∧ is_Some (view r')
                         ∧ view r' = view r
               | Raise e =>
                   generate_tree (((1, function) :: pre) ++ (0, root_name) :: post) None
                   = Raise e
               end).
Proof.
  split; [done|]. split; [done|]. intros Hsteps.
  set (st1 := mkFrame [mkNode function None []] None (Some 0%nat) 1 None).
  assert (before_root st1) as Hst1.
  { split; [done|]. split; [done|]. exists 0%nat. split; [done|].
    by eapply at_depth_root. }
  destruct (before_root_run pre st1 Hst1 Hsteps) as (st & Hrun & Ht & Hni & _).
  assert (run None initial ((1, function) :: pre) = Ok st) as Hrun1 by exact Hrun.
  exists st. split; [exact Hrun1|]. split; [exact Ht|].
  split. { unfold generate_tree. rewrite Hrun1. cbn [mbind result_bind]. by rewrite Ht. }
  intros root_name post.
  set (st0 := mkFrame [mkNode root_name None []] (Some 0%nat) (Some 0%nat) 0 None).
  assert (run None initial ((0, root_name) :: post) = run None st0 post) as Hfrom0
    by reflexivity.
  assert (run None initial (((1, function) :: pre) ++ (0, root_name) :: post)
          = shift_frame (store st) <$> run None st0 post) as Hboth.
  { rewrite run_app, Hrun1. cbn [mbind result_bind].
    rewrite <- run_shift.
    assert (loop_body None st (0, root_name) = Ok (shift_frame (store st) st0)) as Hbody.
    { unfold loop_body, add_entry, adding_to_tree. cbn [fst snd]. rewrite Ht, Hni.
      unfold new_Node, shift_frame, shift_store, shift_ref. cbn.
      by rewrite Nat.add_0_r. }
    unfold run at 1. cbn [for_each]. by rewrite Hbody. }
  unfold generate_tree. rewrite Hboth, Hfrom0.
  destruct (run None st0 post) as [st2|e] eqn:Hrun2; [|done].
  cbn [fmap result_fmap mbind result_bind].
  pose proof (run_keeps_root None post st0 st2 0%nat Hrun2 eq_refl) as Hroot.
  assert (is_Some (view (store st2, tree st2))) as [t Hview].
  { apply (generate_tree_view ((0, root_name) :: post) None); [|by rewrite Hroot; eexists].
    unfold generate_tree. by rewrite Hfrom0. }
  assert (view (store (shift_frame (store st) st2), tree (shift_frame (store st) st2))
          = Some t) as Hview'.
  { revert Hview. unfold view, tree_view, shift_frame. cbn [fst snd store tree].
    rewrite Hroot. cbn [fmap option_fmap option_map]. intros Hview.
    rewrite to_rose_shift. apply (to_rose_fuel _ _ _ _ _ Hview).
    unfold shift_store. rewrite length_app, length_fmap. lia. }
  eexists. split; [done|]. cbn [fst snd].
  split. { unfold shift_frame. cbn [tree]. rewrite Hroot. cbn. unfold shift_ref. f_equal. lia. }
  rewrite Hview', Hview. split; [by eexists|done].
Qed.

Lemma first_entry_depth_witness :
  steps_before_root 1 [(2, "Y"); (2, "Z")]%string = true
  ∧ ∃ r', generate_tree ([(1, "X"); (2, "Y"); (2, "Z")]%string
                         ++ [(0, "A"); (1, "B")]%string) None = Ok r'
          ∧ r'.2 = Some 3%nat
          ∧ view r' = Some (Rose "A" [Rose "B" []]).
Proof.
  split; [reflexivity|].
  destruct (first_entry_depth "X" [(2, "Y"); (2, "Z")]%string) as (_ & _ & H).
  destruct (H eq_refl) as (st & Hrun & _ & _ & Hpost).
  specialize (Hpost "A"%string [(1, "B")]%string).
  injection Hrun as <-.
  destruct Hpost as (r' & Hgen & Hroot & _ & Hview).
  exists r'. split; [exact Hgen|]. split; [exact Hroot|exact Hview].
Defined.

(** C7 fails: a run whose first entry is at depth 1 raises nothing, and
    with a later entry at depth 0 it returns a tree. *)
Lemma first_entry_depth_1_counterexample :
  ∃ r, generate_tree [(1, "X"); (0, "A")]%string None = Ok r
       ∧ view r = Some (Rose "A" []).
Proof. eexists. split; reflexivity. Qed.

(** * Further properties of the builder *)

(** ** The cursor stays under the root *)

Lemma walk_up_add h a : ∀ b c,
  walk_up (a + b) h c = (x ← walk_up a h c; walk_up b h x).
Proof.
  induction a as [|a IH]; intros b c; [done|].
  cbn [Nat.add walk_up]. destruct (get_parent h c) as [p|e]; [|done].
  cbn [mbind result_bind]. apply IH.
Qed.

(** Allocation keeps the walks of the store. *)
Lemma walk_up_new_Node h f p k : ∀ c a,
  walk_up k h c = Ok a → walk_up k (new_Node h f p).1 c = Ok a.
Proof.
  induction k as [|k IH]; intros c a; [done|].
  cbn [walk_up]. destruct c as [id|]; [|done].
  destruct (h !! id) as [n|] eqn:Hn; [|by unfold get_parent; rewrite Hn].
  rewrite new_Node_get_parent by (eapply lookup_lt_Some; eauto).
  destruct (get_parent h (Some id)) as [q|e]; [|done].
  cbn [mbind result_bind]. apply IH.
Qed.

Lemma walk_up_from_new h f p k :
  walk_up (S k) (new_Node h f p).1 (Some (length h))
  = walk_up k (new_Node h f p).1 p.
Proof.
  cbn [walk_up]. unfold get_parent. by rewrite new_Node_lookup_new.
Qed.

Lemma under_root_step h t c l i f h' t' c' l' :
  under_root h t c l → 0 ≤ i →
  adding_to_tree h t c l i f = Ok (h', t', c', l') → under_root h' t' c' l'.
Proof.
  intros Hinv Hi Hadd.
  destruct (adding_to_tree_cases _ _ _ _ _ _ _ Hadd)
    as [(-> & -> & Hr)|[(-> & Ht & Hr)|[(Hi0 & -> & Hr)
       |[(Hi0 & Hlt & a & Hw & Hr)|(Hi0 & -> & p & Hp & Hr)]]]].
  - assert (h' = (new_Node h f None).1 ∧ t' = Some (length h)
            ∧ c' = Some (length h) ∧ l' = 0) as (-> & -> & -> & ->)
      by (repeat split; congruence).
    right. exists (length h). split; [done|]. split; [|done].
    eapply at_depth_root; [apply new_Node_lookup_new|done].
  - assert (h' = h ∧ t' = t ∧ c' = c ∧ l' = l) as (-> & -> & -> & ->)
      by (repeat split; congruence).
    done.
  - assert (h' = (new_Node h f c).1 ∧ t' = t ∧ c' = Some (length h) ∧ l' = l + 1)
      as (-> & -> & -> & ->) by (repeat split; congruence).
    destruct Hinv as [->|(id & -> & Hd & Hw)]; [by left|right].
    pose proof (at_depth_nonneg _ _ _ Hd) as Hl.
    exists (length h). split; [done|]. split; [by apply at_depth_new|].
    replace (Z.to_nat (l + 1)) with (S (Z.to_nat l)) by lia.
    rewrite walk_up_from_new. by apply walk_up_new_Node.
  - assert (h' = h ∧ t' = t ∧ c' = a ∧ l' = i) as (-> & -> & -> & ->)
      by (repeat split; congruence).
    destruct Hinv as [->|(id & -> & Hd & Hroot)]; [by left|right].
    destruct (at_depth_walk_up h (Z.to_nat (l - i)) id l Hd) as (a' & Ha' & Hd');
      [lia|].
    rewrite Ha' in Hw. injection Hw as <-.
    replace (l - Z.of_nat (Z.to_nat (l - i))) with i in Hd' by lia.
    exists a'. split; [done|]. split; [done|].
    replace (Z.to_nat l) with (Z.to_nat (l - i) + Z.to_nat i)%nat in Hroot by lia.
    rewrite walk_up_add, Ha' in Hroot. exact Hroot.
  - assert (h' = (new_Node h f p).1 ∧ t' = t ∧ c' = Some (length h) ∧ l' = l)
      as (-> & -> & -> & ->) by (repeat split; congruence).
    destruct Hinv as [->|(id & -> & Hd & Hroot)]; [by left|right].
    destruct (at_depth_parent h id l Hd) as (q & Hq & Hqd); [lia|].
    rewrite Hq in Hp. injection Hp as <-.
    exists (length h). split; [done|]. split.
    + replace l with (l - 1 + 1) by lia. by apply at_depth_new.
    + pose proof (at_depth_nonneg _ _ _ Hqd) as Hl.
      replace (Z.to_nat l) with (S (Z.to_nat (l - 1))) in * by lia.
      rewrite walk_up_from_new. apply walk_up_new_Node.
      cbn [walk_up] in Hroot. by rewrite Hq in Hroot.
Qed.

(** X1: along a run, filtered or not, on entries of non-negative depth,
    once the root exists the cursor is a node of its tree: it is at depth
    [curr_lvl], [curr_lvl] parent links lead from it to the root, and the
    root has no parent. *)
Theorem cursor_is_under_root fl pre st root :
  run fl initial pre = Ok st →
  Forall (λ e : entry, 0 ≤ e.1) pre →
  tree st = Some root →
  ∃ id, curr_node st = Some id
        ∧ at_depth (store st) id (curr_lvl st)
        ∧ walk_up (Z.to_nat (curr_lvl st)) (store st) (Some id) = Ok (Some root)
        ∧ get_parent (store st) (Some root) = Ok None.
Proof.
  intros Hrun Hpre Hroot.
  assert (under_root (store st) (tree st) (curr_node st) (curr_lvl st)) as Hinv.
  { apply (run_invariant under_root (λ e, 0 ≤ e.1)) with (fl := fl) (data := pre)
                                                        (st := initial); try done.
    - intros. eapply under_root_step; eauto.
    - by left. }
  destruct Hinv as [Hnone|(id & Hc & Hd & Hw)]; [congruence|].
  rewrite Hroot in Hw.
  exists id. split; [done|]. split; [done|]. split; [done|].
  destruct (at_depth_walk_up _ (Z.to_nat (curr_lvl st)) id _ Hd) as (a & Ha & Hda);
    [pose proof (at_depth_nonneg _ _ _ Hd); lia|].
  rewrite Ha in Hw. injection Hw as ->.
  pose proof (at_depth_nonneg _ _ _ Hd) as Hl.
  replace (curr_lvl st - Z.of_nat (Z.to_nat (curr_lvl st))) with 0 in Hda by lia.
  inversion Hda as [? n Hn Hp|? n p d Hn Hp Hpd Heq].
  - unfold get_parent. by rewrite Hn, Hp.
  - pose proof (at_depth_nonneg _ _ _ Hpd). lia.
Qed.

Lemma cursor_is_under_root_witness :
  ∃ st id,
    run (Some ["Bad"%string]) initial
        [(0, "A"); (1, "B"); (2, "Bad"); (3, "C"); (2, "D"); (1, "B")]%string = Ok st
    ∧ curr_node st = Some id
    ∧ at_depth (store st) id (curr_lvl st)
    ∧ walk_up (Z.to_nat (curr_lvl st)) (store st) (Some id) = Ok (Some 0%nat)
    ∧ get_parent (store st) (Some 0%nat) = Ok None.
Proof.
  eexists.
  destruct (cursor_is_under_root (Some ["Bad"%string])
              [(0, "A"); (1, "B"); (2, "Bad"); (3, "C"); (2, "D"); (1, "B")]%string
              _ 0%nat eq_refl) as (id & H).
  - repeat constructor; simpl; lia.
  - reflexivity.
  - exists id. split; [reflexivity|]. exact H.
Defined.

(** X2: in a run on entries of non-negative depth, once the root exists,
    an entry that changes the store makes one node, at the depth the entry
    states: the store grows by one node, named by the entry, without
    children, at depth [index]. *)
Theorem node_is_made_at_stated_depth fl pre st index function st' :
  run fl initial pre = Ok st →
  Forall (λ e : entry, 0 ≤ e.1) pre →
  is_Some (tree st) →
  0 ≤ index →
  loop_body fl st (index, function) = Ok st' →
  store st' ≠ store st →
  length (store st') = S (length (store st))
  ∧ at_depth (store st') (length (store st)) index
  ∧ ∃ n, store st' !! length (store st) = Some n
         ∧ name n = function ∧ children n = [].
Proof.
  intros Hrun Hpre [r Hr] Hi Hbody Hne.
  pose proof (run_cursor_ok fl pre st Hrun Hpre) as Hinv.
  destruct (loop_body_cases _ _ _ _ Hbody) as [(Hs & _)|Hadd]; [congruence|].
  cbn [fst snd] in Hadd.
  pose proof (cursor_ok_step _ _ _ _ _ _ _ _ _ _ Hinv Hi Hadd) as Hinv'.
  destruct (adding_to_tree_cases _ _ _ _ _ _ _ Hadd)
    as [(_ & Hnone & _)|[(_ & _ & Hres)|[(_ & Hl & Hres)
       |[(_ & _ & a & _ & Hres)|(_ & Hl & p & _ & Hres)]]]];
    [congruence|exfalso; apply Hne; congruence| |exfalso; apply Hne; congruence|].
  - assert (store st' = (new_Node (store st) function (curr_node st)).1
            ∧ tree st' = tree st ∧ curr_node st' = Some (length (store st))
            ∧ curr_lvl st' = index) as (Hs & Ht & Hc & Hl')
      by (repeat split; congruence).
    destruct Hinv' as [Hnone|(id & Hid & Hd)]; [congruence|].
    rewrite Hc in Hid. injection Hid as <-. rewrite Hl' in Hd.
    rewrite Hs in *. split; [apply new_Node_length|]. split; [exact Hd|].
    eexists. split; [apply new_Node_lookup_new|done].
  - assert (store st' = (new_Node (store st) function p).1
            ∧ tree st' = tree st ∧ curr_node st' = Some (length (store st))
            ∧ curr_lvl st' = index) as (Hs & Ht & Hc & Hl')
      by (repeat split; congruence).
    destruct Hinv' as [Hnone|(id & Hid & Hd)]; [congruence|].
    rewrite Hc in Hid. injection Hid as <-. rewrite Hl' in Hd.
    rewrite Hs in *. split; [apply new_Node_length|]. split; [exact Hd|].
    eexists. split; [apply new_Node_lookup_new|done].
Qed.

Lemma node_is_made_at_stated_depth_witness :
  ∃ st st',
    run None initial [(0, "A"); (1, "B"); (2, "C"); (1, "B")]%string = Ok st
    ∧ loop_body None st (2, "D"%string) = Ok st'
    ∧ length (store st') = S (length (store st))
    ∧ at_depth (store st') (length (store st)) 2
    ∧ ∃ n, store st' !! length (store st) = Some n
           ∧ name n = "D"%string ∧ children n = [].
Proof.
  do 2 eexists. split; [reflexivity|]. split; [reflexivity|].
  eapply (node_is_made_at_stated_depth None
            [(0, "A"); (1, "B"); (2, "C"); (1, "B")]%string).
  - reflexivity.
  - repeat constructor; simpl; lia.
  - by eexists.
  - lia.
  - reflexivity.
  - discriminate.
Defined.

(** ** What a run can raise *)

(** With a root and a cursor at its depth, [adding_to_tree] succeeds on an
    entry at most one level below the cursor, and raises the ValueError on
    any deeper one. *)
Lemma adding_to_tree_outcome h t c l i f :
  cursor_ok h t c l → is_Some t → 0 ≤ i →
  (i ≤ l + 1 →
   ∃ h' c' l', adding_to_tree h t c l i f = Ok (h', t, c', l') ∧ i ≤ l' ∧ 0 ≤ l')
  ∧ (l + 1 < i →
     ∃ nm, adding_to_tree h t c l i f = Raise (ValueError (CouldntAddEntry l f i nm))).
Proof.
  intros [->|(id & -> & Hd)] [r Hr] Hi; [done|]. subst t.
  pose proof (at_depth_nonneg _ _ _ Hd) as Hl.
  unfold adding_to_tree. split.
  - intros Hle.
    destruct (Z.eqb_spec i 0) as [->|Hi0]; [by eauto 10|].
    destruct (Z.eqb_spec i (l + 1)) as [->|Hi1].
    { unfold new_Node. eexists _, _, _. split; [reflexivity|lia]. }
    destruct (Z.ltb_spec i l) as [Hlt|Hge].
    { destruct (at_depth_walk_up h (Z.to_nat (l - i)) id l Hd) as (a & -> & _);
        [lia|].
      eexists _, _, _. split; [reflexivity|lia]. }
    destruct (Z.eqb_spec i l) as [->|Hil]; [|lia].
    destruct (at_depth_parent h id l Hd) as (q & -> & _); [lia|].
    unfold new_Node. eexists _, _, _. split; [reflexivity|lia].
  - intros Hgt.
    destruct (Z.eqb_spec i 0); [lia|].
    destruct (Z.eqb_spec i (l + 1)); [lia|].
    destruct (Z.ltb_spec i l); [lia|].
    destruct (Z.eqb_spec i l); [lia|].
    destruct (at_depth_get_name _ _ _ Hd) as (nd & _ & ->). by eexists.
Qed.

(** The exception of a run is raised by [adding_to_tree], on an entry of
    the data that reached it, after the entries before it were read. *)
Lemma run_raises_at fl data : ∀ st e,
  run fl st data = Raise e →
  ∃ pre st1 i f post,
    data = pre ++ (i, f) :: post
    ∧ run fl st pre = Ok st1
    ∧ reaches_builder fl st1 (i, f) = true
    ∧ adding_to_tree (store st1) (tree st1) (curr_node st1) (curr_lvl st1) i f
      = Raise e.
Proof.
  unfold run. induction data as [|[i f] data IH]; intros st e; [done|].
  cbn [for_each]. destruct (loop_body fl st (i, f)) as [st1|e1] eqn:Hbody.
  - intros Hrest.
    destruct (IH st1 e Hrest) as (pre & st2 & i2 & f2 & post & -> & Hpre & Hreach & Hadd).
    exists ((i, f) :: pre), st2, i2, f2, post. split; [done|].
    split; [|by split]. cbn [for_each]. by rewrite Hbody.
  - intros [= ->]. exists [], st, i, f, data. split; [done|]. split; [done|].
    revert Hbody. unfold loop_body, add_entry, reaches_builder. cbn [fst snd].
    destruct fl as [fl|].
    + destruct (child_of_filtered _ _); [done|].
      destruct (filtered_out _ _); [done|].
      cbn [store tree curr_node curr_lvl with_next_index].
      destruct (adding_to_tree _ _ _ _ _ _) as [[[[? ?] ?] ?]|]; [done|].
      by intros [= ->].
    + destruct (adding_to_tree _ _ _ _ _ _) as [[[[? ?] ?] ?]|]; [done|].
      by intros [= ->].
Qed.

Lemma loop_body_started fl st e st' :
  started fl st → 0 ≤ e.1 → loop_body fl st e = Ok st' → started fl st'.
Proof.
  intros Hst Hi Hbody.
  destruct Hst as [[r Hr]|(Hnone & Hni & [fl' ->])].
  - left. destruct (loop_body_cases _ _ _ _ Hbody) as [(_ & -> & _)|Hadd];
      [by eexists|].
    destruct (adding_to_tree_root _ _ _ _ _ _ _ _ _ _ Hadd) as [[-> _]|[-> _]];
      by eexists.
  - revert Hbody. unfold loop_body, add_entry. destruct e as [i f]. cbn [fst snd] in *.
    rewrite Hni. cbn [child_of_filtered].
    destruct (Z.ltb_spec 0 i); [intros [= <-]; right; eauto|].
    assert (i = 0) as -> by lia.
    destruct (filtered_out fl' f); [intros [= <-]; right; eauto|].
    cbn [store tree curr_node curr_lvl with_next_index]. rewrite Hnone.
    unfold adding_to_tree. cbn. intros [= <-]. left. by eexists.
Qed.

Lemma run_started fl data : ∀ st st',
  started fl st → Forall (λ e : entry, 0 ≤ e.1) data →
  run fl st data = Ok st' → started fl st'.
Proof.
  unfold run. induction data as [|e data IH]; intros st st' Hst Hdata.
  { by intros [= <-]. }
  apply Forall_cons in Hdata as [He Hdata]. cbn [for_each].
  destruct (loop_body fl st e) as [st1|] eqn:Hbody; [|done].
  cbn [mbind result_bind]. apply IH; [|done].
  eapply loop_body_started; eauto.
Qed.

(** The first entry, at depth 0, starts the run. *)
Lemma loop_body_initial fl function :
  ∃ st, loop_body fl initial (0, function) = Ok st
        ∧ started fl st ∧ trace_inv 0 st
        ∧ (next_index st = None ∨ is_Some fl).
Proof.
  assert (trace_inv 0 (mkFrame [mkNode function None []] (Some 0%nat) (Some 0%nat) 0 None))
    as Hroot.
  { split; [|split; [done|by split; [eexists|]]].
    right. exists 0%nat. split; [done|]. by eapply at_depth_root. }
  destruct fl as [fl|]; cbn.
  - destruct (filtered_out fl function).
    + eexists. split; [done|]. split; [right; eauto|]. split; [|right; eauto].
      split; [by left|]. cbn. split; [done|]. split; [lia|done].
    + eexists. split; [done|]. split; [left; by eexists|]. split; [exact Hroot|by left].
  - eexists. split; [done|]. split; [left; by eexists|]. split; [exact Hroot|by left].
Qed.

(** X3: a run, filtered or not, on entries of non-negative depth whose
    first entry is at depth 0 raises nothing but the ValueError of a skipped
    level: the exception of [generate_tree] comes from an entry more than
    one level below the cursor, met once the root exists. *)
Theorem only_a_skipped_level_raises function rest fl e :
  Forall (λ e : entry, 0 ≤ e.1) rest →
  generate_tree ((0, function) :: rest) fl = Raise e →
  ∃ pre st i f post nm,
    (0, function) :: rest = pre ++ (i, f) :: post
    ∧ run fl initial pre = Ok st
    ∧ is_Some (tree st)
    ∧ curr_lvl st + 1 < i
    ∧ e = ValueError (CouldntAddEntry (curr_lvl st) f i nm).
Proof.
  intros Hrest. unfold generate_tree.
  destruct (run fl initial ((0, function) :: rest)) as [st|e'] eqn:Hrun; [done|].
  cbn [mbind result_bind]. intros [= ->].
  destruct (run_raises_at _ _ _ _ Hrun)
    as (pre & st1 & i & f & post & Hdata & Hpre & Hreach & Hadd).
  assert (Forall (λ e : entry, 0 ≤ e.1) (pre ++ (i, f) :: post)) as Hall.
  { rewrite <- Hdata. by constructor. }
  apply Forall_app in Hall as [Hpre0 [Hi _]%Forall_cons]. cbn [fst] in Hi.
  destruct pre as [|e0 pre'].
  { injection Hpre as <-. injection Hdata as <- <- <-. discriminate Hadd. }
  injection Hdata as <- Hrest'.
  assert (started fl st1) as Hst.
  { revert Hpre. unfold run. cbn [for_each].
    destruct (loop_body_initial fl function) as (s0 & -> & Hs0 & _).
    cbn [mbind result_bind]. intros Hpre'.
    apply Forall_cons in Hpre0 as [_ Hpre0].
    by apply (run_started fl pre' s0 st1). }
  destruct Hst as [Hsome|(Hnone & Hni & [fl' ->])].
  - pose proof (run_cursor_ok _ _ _ Hpre Hpre0) as Hcur.
    destruct (adding_to_tree_outcome _ _ _ _ i f Hcur Hsome Hi) as [Hok Hraise].
    destruct (Z.le_gt_cases i (curr_lvl st1 + 1)) as [Hle|Hgt].
    + destruct (Hok Hle) as (? & ? & ? & Hadd' & _). congruence.
    + destruct (Hraise ltac:(lia)) as (nm & Hadd').
      exists ((0, function) :: pre'), st1, i, f, post, nm.
      rewrite Hrest'. split; [done|]. split; [done|]. split; [done|].
      split; [lia|congruence].
  - exfalso. unfold reaches_builder in Hreach. rewrite Hni in Hreach.
    cbn [child_of_filtered fst] in Hreach.
    destruct (Z.ltb_spec 0 i); [done|].
    assert (i = 0) as -> by lia. rewrite Hnone in Hadd. discriminate Hadd.
Qed.

Lemma only_a_skipped_level_raises_witness :
  ∃ pre st i f post nm,
    [(0, "A"); (1, "B"); (3, "C"); (1, "D")]%string = pre ++ (i, f) :: post
    ∧ run None initial pre = Ok st
    ∧ is_Some (tree st)
    ∧ curr_lvl st + 1 < i
    ∧ ValueError (CouldntAddEntry 1 "C" 3 "B")
      = ValueError (CouldntAddEntry (curr_lvl st) f i nm).
Proof.
  apply (only_a_skipped_level_raises "A" [(1, "B"); (3, "C"); (1, "D")]%string None).
  - repeat constructor; simpl; lia.
  - reflexivity.
Defined.

(** ** Pre-order walks *)

Lemma add_entry_trace st i f :
  cursor_ok (store st) (tree st) (curr_node st) (curr_lvl st) →
  0 ≤ curr_lvl st → 0 ≤ i ≤ curr_lvl st + 1 → (tree st = None → i = 0) →
  ∃ st', add_entry st i f = Ok st'
         ∧ cursor_ok (store st') (tree st') (curr_node st') (curr_lvl st')
         ∧ is_Some (tree st') ∧ i ≤ curr_lvl st' ∧ 0 ≤ curr_lvl st'
         ∧ next_index st' = next_index st.
Proof.
  intros Hcur Hl [Hi Hle] Hnone. unfold add_entry.
  destruct (tree st) as [r|] eqn:Ht.
  - destruct (adding_to_tree_outcome _ _ _ _ i f Hcur ltac:(by eexists) Hi)
      as [Hok _].
    destruct (Hok Hle) as (h' & c' & l' & Hadd & Hil & Hl').
    rewrite Hadd. cbn. eexists. split; [done|]. cbn.
    split; [exact (cursor_ok_step _ _ _ _ _ _ _ _ _ _ Hcur Hi Hadd)|].
    split; [by eexists|done].
  - rewrite (Hnone eq_refl). cbn. eexists. split; [done|]. cbn.
    split; [|split; [by eexists|done]].
    right. exists (length (store st)). split; [done|].
    eapply at_depth_root; [apply (new_Node_lookup_new _ f None)|done].
Qed.

Lemma trace_inv_step fl prev st e :
  trace_inv prev st → next_index st = None ∨ is_Some fl →
  0 ≤ e.1 ≤ prev + 1 →
  ∃ st', loop_body fl st e = Ok st' ∧ trace_inv e.1 st'
         ∧ (next_index st' = None ∨ is_Some fl)
         ∧ (is_Some (tree st) → is_Some (tree st')).
Proof.
  intros (Hcur & Hl & Hni) Hside [Hi Hle]. destruct e as [i f]. cbn [fst] in *.
  unfold loop_body. cbn [fst snd].
  assert (∀ st0, store st0 = store st → tree st0 = tree st →
                 curr_node st0 = curr_node st → curr_lvl st0 = curr_lvl st →
                 i ≤ curr_lvl st + 1 → (tree st = None → i = 0) →
                 ∃ st', add_entry st0 i f = Ok st'
                        ∧ trace_inv i (with_next_index st' None)
                        ∧ is_Some (tree st')
                        ∧ next_index st' = next_index st0) as Hadd.
  { intros st0 Hs Ht Hc Hl0 Hle' Hnone.
    destruct (add_entry_trace st0 i f) as (st' & Hst' & Hcur' & Hsome & Hil & Hl' & Hn);
      rewrite ?Hs, ?Ht, ?Hc, ?Hl0; try done.
    exists st'. split; [done|]. split; [|done].
    split; [exact Hcur'|]. split; [exact Hl'|]. cbn. done. }
  destruct fl as [fl|].
  - destruct (next_index st) as [d|] eqn:Hnext; cbn [child_of_filtered].
    + destruct Hni as [Hd Hnone].
      destruct (Z.ltb_spec d i) as [Hskip|Hpass].
      { exists st. split; [done|]. split; [|split; [right; eauto|done]].
        split; [done|]. split; [done|]. by rewrite Hnext. }
      destruct (filtered_out fl f).
      { eexists. split; [done|]. split; [|split; [right; eauto|done]].
        split; [done|]. split; [done|]. cbn. split; [lia|].
        intros Ht. specialize (Hnone Ht). lia. }
      destruct (Hadd (with_next_index st None)) as (st' & -> & Hinv & Hsome & Hn);
        try done; [lia|intros Ht; specialize (Hnone Ht); lia|].
      exists st'. split; [done|]. cbn in Hn.
      replace st' with (with_next_index st' None)
        by (destruct st'; cbn in *; by rewrite Hn).
      split; [exact Hinv|]. split; [by left|done].
    + destruct Hni as [Hsome Hprev].
      destruct (filtered_out fl f).
      { eexists. split; [done|]. split; [|split; [right; eauto|done]].
        split; [done|]. split; [done|]. cbn. split; [lia|].
        intros Ht. rewrite Ht in Hsome. by destruct Hsome. }
      destruct (Hadd (with_next_index st None)) as (st' & -> & Hinv & Hsome' & Hn);
        try done; [lia|intros Ht; rewrite Ht in Hsome; by destruct Hsome|].
      exists st'. split; [done|]. cbn in Hn.
      replace st' with (with_next_index st' None)
        by (destruct st'; cbn in *; by rewrite Hn).
      split; [exact Hinv|]. split; [by left|done].
  - destruct Hside as [Hnext|[? [=]]]. rewrite Hnext in Hni.
    destruct Hni as [Hsome Hprev].
    destruct (Hadd st) as (st' & -> & Hinv & Hsome' & Hn);
      try done; [lia|intros Ht; rewrite Ht in Hsome; by destruct Hsome|].
    exists st'. split; [done|]. rewrite Hnext in Hn.
    replace st' with (with_next_index st' None)
      by (destruct st'; cbn in *; by rewrite Hn).
    split; [exact Hinv|]. split; [by left|done].
Qed.

Lemma trace_inv_run fl rest : ∀ prev st,
  trace_inv prev st → next_index st = None ∨ is_Some fl →
  preorder_steps prev rest = true →
  ∃ st', run fl st rest = Ok st' ∧ (is_Some (tree st) → is_Some (tree st')).
Proof.
  unfold run. induction rest as [|e rest IH]; intros prev st Hinv Hside Hsteps.
  { by exists st. }
  cbn [preorder_steps] in Hsteps.
  apply andb_prop in Hsteps as [[Hlo%Z.leb_le Hhi%Z.leb_le]%andb_prop Hrest].
  destruct (trace_inv_step fl prev st e Hinv Hside ltac:(lia))
    as (st1 & Hbody & Hinv1 & Hside1 & Hsome1).
  destruct (IH e.1 st1 Hinv1 Hside1 Hrest) as (st' & Hrun & Hsome').
  exists st'. cbn [for_each]. rewrite Hbody. split; [exact Hrun|tauto].
Qed.

(** X4: on a pre-order walk (the first entry at depth 0, every later one at
    a depth from 0 to one more than the entry before it), [generate_tree]
    returns, with any filter list or none: no ascent, repeat or suppressed
    subtree makes it raise.  Without filter list it returns a root. *)
Theorem preorder_walk_never_raises data fl :
  preorder_trace data = true →
  ∃ r, generate_tree data fl = Ok r ∧ (fl = None → is_Some r.2).
Proof.
  destruct data as [|[i f] rest]; [done|]. cbn [preorder_trace fst].
  intros [->%Z.eqb_eq Hrest]%andb_prop.
  destruct (loop_body_initial fl f) as (s0 & Hbody & Hst & Hinv & Hside).
  destruct (trace_inv_run fl rest 0 s0 Hinv Hside Hrest) as (st' & Hrun & Hsome).
  exists (store st', tree st'). unfold generate_tree, run. cbn [for_each].
  rewrite Hbody. cbn [mbind result_bind]. unfold run in Hrun. rewrite Hrun.
  split; [done|]. intros ->. apply Hsome.
  destruct Hst as [Hs|(_ & _ & [? [=]])]. exact Hs.
Qed.

Lemma preorder_walk_never_raises_witness :
  ∃ r, generate_tree
         [(0, "A"); (1, "B"); (2, "Bad"); (3, "C"); (1, "B"); (0, "A"); (1, "D")]%string
         (Some ["Bad"%string]) = Ok r
       ∧ (Some ["Bad"%string] = None → is_Some r.2).
Proof.
  apply (preorder_walk_never_raises
           [(0, "A"); (1, "B"); (2, "Bad"); (3, "C"); (1, "B"); (0, "A"); (1, "D")]%string).
  reflexivity.
Defined.

(** ** Filters *)

Lemma with_next_index_same st : with_next_index st (next_index st) = st.
Proof. by destruct st. Qed.

(** A filter list that matches no label of the data leaves every step as
    the unfiltered step. *)
Lemma run_unmatched fl data : ∀ st,
  next_index st = None →
  Forall (λ e : entry, filtered_out fl e.2 = false) data →
  run (Some fl) st data = run None st data.
Proof.
  unfold run. induction data as [|e data IH]; intros st Hni Hdata; [done|].
  apply Forall_cons in Hdata as [He Hdata]. cbv beta in He. cbn [for_each].
  assert (loop_body (Some fl) st e = loop_body None st e) as ->.
  { unfold loop_body. cbv zeta. rewrite Hni. cbn [child_of_filtered].
    destruct (filtered_out fl e.2); [discriminate He|].
    by rewrite <- Hni, with_next_index_same. }
  destruct (loop_body None st e) as [st1|] eqn:Hbody; [|done].
  cbn [mbind result_bind]. apply IH; [|done].
  revert Hbody. unfold loop_body, add_entry.
  destruct (adding_to_tree _ _ _ _ _ _) as [[[[? ?] ?] ?]|]; [|done].
  by intros [= <-].
Qed.

(** X5: a filter list that matches no label of the data changes nothing:
    [generate_tree] returns, or raises, what it does without filter list.
    The empty filter list is one. *)
Theorem unmatched_filters_change_nothing data fl :
  Forall (λ e : entry, filtered_out fl e.2 = false) data →
  generate_tree data (Some fl) = generate_tree data None.
Proof.
  intros Hdata. unfold generate_tree. by rewrite run_unmatched.
Qed.

Lemma unmatched_filters_change_nothing_witness :
  generate_tree [(0, "ntdll!A"); (1, "ntdll!B"); (3, "ntdll!C")]%string
                (Some ["Heap"; "free"]%string)
  = generate_tree [(0, "ntdll!A"); (1, "ntdll!B"); (3, "ntdll!C")]%string None
  ∧ generate_tree [(0, "ntdll!A"); (1, "ntdll!B")]%string (Some [])
    = generate_tree [(0, "ntdll!A"); (1, "ntdll!B")]%string None.
Proof.
  split; apply unmatched_filters_change_nothing; repeat constructor.
Defined.

Lemma find_empty s : find s "" = 0.
Proof. unfold find. by destruct s. Qed.

Lemma filtered_out_empty_word fl function :
  ""%string ∈ fl → filtered_out fl function = true.
Proof.
  intros Hin. unfold filtered_out. apply existsb_exists.
  exists ""%string. split; [by apply list_elem_of_In|]. by rewrite find_empty.
Qed.

Lemma run_all_suppressed fl data : ∀ st,
  Forall (λ e : entry, filtered_out fl e.2 = true) data →
  ∃ ni, run (Some fl) st data = Ok (with_next_index st ni).
Proof.
  unfold run. induction data as [|e data IH]; intros st Hdata.
  { exists (next_index st). by rewrite with_next_index_same. }
  apply Forall_cons in Hdata as [He Hdata]. cbv beta in He. cbn [for_each].
  assert (∃ ni, loop_body (Some fl) st e = Ok (with_next_index st ni)) as [ni0 ->].
  { unfold loop_body. cbv zeta. rewrite He.
    destruct (child_of_filtered _ _); [|by eexists].
    exists (next_index st). by rewrite with_next_index_same. }
  cbn [mbind result_bind].
  destruct (IH (with_next_index st ni0) Hdata) as [ni ->]. by exists ni.
Qed.

(** X6: when every label of the data contains a word of the filter list,
    as it does when the list holds the empty word, the filtered run makes
    no node: [generate_tree] returns None, with an empty store. *)
Theorem all_labels_suppressed data fl :
  ""%string ∈ fl ∨ Forall (λ e : entry, filtered_out fl e.2 = true) data →
  generate_tree data (Some fl) = Ok ([], None).
Proof.
  intros Hall.
  assert (Forall (λ e : entry, filtered_out fl e.2 = true) data) as Hdata.
  { destruct Hall as [Hin|H]; [|done].
    apply Forall_forall. intros e _. by apply filtered_out_empty_word. }
  unfold generate_tree.
  by destruct (run_all_suppressed fl data initial Hdata) as [ni ->].
Qed.

Lemma all_labels_suppressed_witness :
  generate_tree [(0, "ntdll!A"); (1, "ntdll!B")]%string (Some ["Heap"; ""]%string)
  = Ok ([], None).
Proof.
  apply all_labels_suppressed. left.
  apply elem_of_cons. right. apply elem_of_cons. by left.
Defined.

(** X7: a suppressed entry takes its subtree with it: when an entry at
    depth [d] that the filter examines matches a word, the entries after it
    that are deeper than [d] are skipped, and the run goes on from the
    variables as they were, with [next_index] at [d]. *)
Theorem suppressed_subtree_is_skipped fl st d function block rest :
  child_of_filtered (next_index st) d = false →
  filtered_out fl function = true →
  Forall (λ e : entry, d < e.1) block →
  run (Some fl) st ((d, function) :: block ++ rest)
  = run (Some fl) (with_next_index st (Some d)) rest.
Proof.
  intros Hpass Hmatch Hblock. unfold run. cbn [for_each].
  assert (loop_body (Some fl) st (d, function) = Ok (with_next_index st (Some d)))
    as ->.
  { unfold loop_body. cbn [fst snd]. by rewrite Hpass, Hmatch. }
  cbn [mbind result_bind].
  assert (next_index (with_next_index st (Some d)) = Some d) as Hni by done.
  revert Hni. generalize (with_next_index st (Some d)).
  induction Hblock as [|e block He _ IH]; intros st1 Hni; [done|].
  cbn [app for_each].
  assert (loop_body (Some fl) st1 e = Ok st1) as ->.
  { unfold loop_body. cbv zeta. rewrite Hni. cbn [child_of_filtered].
    by destruct (Z.ltb_spec d e.1); [|lia]. }
  cbn [mbind result_bind]. by apply IH.
Qed.

Lemma suppressed_subtree_is_skipped_witness :
  run (Some ["Bad"%string]) (mkFrame [mkNode "A" None []] (Some 0%nat) (Some 0%nat) 0 None)
      ((1, "Bad"%string) :: [(2, "C"); (3, "D"); (2, "E")]%string ++ [(1, "F"%string)])
  = run (Some ["Bad"%string])
        (with_next_index (mkFrame [mkNode "A" None []] (Some 0%nat) (Some 0%nat) 0 None)
                         (Some 1))
        [(1, "F"%string)].
Proof.
  apply suppressed_subtree_is_skipped.
  - reflexivity.
  - reflexivity.
  - repeat constructor; simpl; lia.
Defined.

(** A property of the builder's variables that [adding_to_tree] keeps on
    the entries that reach it holds along the run. *)
Lemma run_invariant_reached fl (P : heap → option ref → option ref → Z → Prop) :
  (∀ st i f h' t' c' l',
      P (store st) (tree st) (curr_node st) (curr_lvl st) →
      reaches_builder fl st (i, f) = true →
      adding_to_tree (store st) (tree st) (curr_node st) (curr_lvl st) i f
      = Ok (h', t', c', l') →
      P h' t' c' l') →
  ∀ data st st',
    run fl st data = Ok st' →
    P (store st) (tree st) (curr_node st) (curr_lvl st) →
    P (store st') (tree st') (curr_node st') (curr_lvl st').
Proof.
  intros Hstep data. unfold run.
  induction data as [|[i f] data IH]; intros st st'; cbn [for_each].
  { by intros [= <-]. }
  destruct (loop_body fl st (i, f)) as [st1|] eqn:Hbody; [|done].
  cbn [mbind result_bind]. intros Hrun HP. apply (IH st1 st' Hrun).
  destruct (reaches_builder fl st (i, f)) eqn:Hreach.
  - rewrite (reaches_builder_loop_body _ _ _ Hreach) in Hbody. cbn [fst snd] in Hbody.
    destruct (adding_to_tree _ _ _ _ _ _) as [[[[h t] c] l]|] eqn:Hadd; [|done].
    cbn in Hbody. injection Hbody as <-. cbn. eapply Hstep; eauto.
  - revert Hbody. unfold reaches_builder, loop_body in *. cbn [fst snd] in *.
    destruct fl as [fl|]; [|done].
    destruct (child_of_filtered _ _); [by intros [= <-]|].
    destruct (filtered_out _ _); [by intros [= <-]|done].
Qed.

(** X8: no node of a filtered tree has a name that contains a word of the
    filter list. *)
Theorem no_node_matches_a_filter data fl r n :
  generate_tree data (Some fl) = Ok r →
  n ∈ r.1 →
  filtered_out fl (name n) = false.
Proof.
  unfold generate_tree.
  destruct (run (Some fl) initial data) as [st|] eqn:Hrun; [|done].
  cbn [mbind result_bind]. intros [= <-]. cbn [fst]. revert n.
  apply (run_invariant_reached (Some fl)
           (λ h _ _ _, ∀ n, n ∈ h → filtered_out fl (name n) = false))
    with (data := data) (st := initial); [|done|].
  - intros s1 i f h' t' c' l' HP Hreach Hadd n Hn.
    unfold reaches_builder in Hreach. cbn [fst snd] in Hreach.
    apply andb_prop in Hreach as [_ Hf%negb_true_iff].
    destruct (adding_to_tree_store _ _ _ _ _ _ _ _ _ _ Hadd) as [->|[p ->]];
      [by apply HP|].
    apply new_Node_elem in Hn as [->|(n0 & Hn0 & <-)]; [done|by apply HP].
  - intros n Hn. by apply elem_of_nil in Hn.
Qed.

Lemma no_node_matches_a_filter_witness :
  filtered_out ["Heap"%string] (name (mkNode "ntdll!B" (Some 0%nat) [])) = false.
Proof.
  apply (no_node_matches_a_filter
           [(0, "ntdll!A"); (1, "ntdll!RtlAllocateHeap"); (2, "ntdll!C"); (1, "ntdll!B")]%string
           ["Heap"%string]
           ([mkNode "ntdll!A" None [1%nat]; mkNode "ntdll!B" (Some 0%nat) []], Some 0%nat)).
  - reflexivity.
  - apply elem_of_cons. right. apply elem_of_cons. by left.
Defined.

(** ** The nodes and the entries *)

Lemma new_Node_names h f p : name <$> (new_Node h f p).1 = (name <$> h) ++ [f].
Proof.
  unfold new_Node. cbn [fst]. rewrite fmap_app. f_equal.
  destruct p as [q|]; [|done].
  apply list_eq. intros i. rewrite !list_lookup_fmap.
  destruct (decide (q = i)) as [->|Hne].
  - rewrite list_lookup_alter_eq. by destruct (h !! i).
  - by rewrite list_lookup_alter_ne.
Qed.

Lemma run_names_sublist fl data : ∀ st st',
  run fl st data = Ok st' →
  ∃ l, name <$> store st' = (name <$> store st) ++ l ∧ l `sublist_of` data.*2.
Proof.
  unfold run. induction data as [|e data IH]; intros st st'; cbn [for_each].
  { intros [= <-]. exists []. by rewrite app_nil_r. }
  destruct (loop_body fl st e) as [st1|] eqn:Hbody; [|done].
  cbn [mbind result_bind]. intros Hrun.
  destruct (IH st1 st' Hrun) as (l & Hl & Hsub). rewrite Hl. cbn [fmap list_fmap].
  destruct (loop_body_cases _ _ _ _ Hbody) as [(-> & _)|Hadd].
  - exists l. split; [done|]. by apply sublist_cons.
  - destruct (adding_to_tree_store _ _ _ _ _ _ _ _ _ _ Hadd) as [->|[p ->]].
    + exists l. split; [done|]. by apply sublist_cons.
    + exists (e.2 :: l). rewrite new_Node_names, <- app_assoc.
      split; [done|]. by apply sublist_skip.
Qed.

(** X9: the names of the nodes, in the order the nodes were made, are a
    subsequence of the labels of the entries: an entry makes one node at
    most, named by its label, and the nodes keep the order of the
    entries. *)
Theorem node_names_follow_the_entries data fl r :
  generate_tree data fl = Ok r →
  (name <$> r.1) `sublist_of` data.*2 ∧ (length r.1 ≤ length data)%nat.
Proof.
  unfold generate_tree.
  destruct (run fl initial data) as [st|] eqn:Hrun; [|done].
  cbn [mbind result_bind]. intros [= <-]. cbn [fst].
  destruct (run_names_sublist _ _ _ _ Hrun) as (l & Hl & Hsub).
  cbn in Hl. rewrite Hl. split; [done|].
  apply sublist_length in Hsub.
  rewrite <- (length_fmap name), Hl. by rewrite length_fmap in Hsub.
Qed.

Lemma node_names_follow_the_entries_witness :
  ∃ r, generate_tree [(0, "A"); (1, "B"); (2, "C"); (1, "B"); (2, "D")]%string None
       = Ok r
       ∧ name <$> r.1 = ["A"; "B"; "C"; "D"]%string
       ∧ (name <$> r.1) `sublist_of`
           [(0, "A"); (1, "B"); (2, "C"); (1, "B"); (2, "D")]%string.*2
       ∧ (length r.1 ≤ 5)%nat.
Proof.
  eexists. split; [reflexivity|]. split; [reflexivity|].
  apply (node_names_follow_the_entries
           [(0, "A"); (1, "B"); (2, "C"); (1, "B"); (2, "D")]%string None).
  reflexivity.
Defined.

(** ** Parent links and children lists *)

Lemma new_Node_well_linked h f p :
  well_linked h → valid_ref h p → well_linked (new_Node h f p).1.
Proof.
  intros (Hwf & Hpar & Hcons & Hnd) Hp.
  split; [by apply new_Node_wf|]. split; [by apply new_Node_parents_ok|].
  assert (∀ id n', (new_Node h f p).1 !! id = Some n' →
            (id = length h ∧ n' = mkNode f p [])
            ∨ (∃ n, h !! id = Some n ∧ parent n' = parent n ∧ name n' = name n
                    ∧ ((p = Some id ∧ children n' = children n ++ [length h])
                       ∨ (p ≠ Some id ∧ children n' = children n)))) as Hlook.
  { intros id n' Hid.
    pose proof (lookup_lt_Some _ _ _ Hid) as Hlt. rewrite new_Node_length in Hlt.
    destruct (decide (id = length h)) as [->|Hne].
    - left. rewrite new_Node_lookup_new in Hid. by injection Hid as <-.
    - right. destruct (lookup_lt_is_Some_2 h id ltac:(lia)) as [n Hn]. exists n.
      split; [done|].
      destruct (decide (p = Some id)) as [->|Hpne].
      + rewrite (new_Node_lookup_parent _ _ _ _ Hn) in Hid. injection Hid as <-.
        cbn. eauto 10.
      + rewrite new_Node_lookup_ne in Hid by (done || lia).
        rewrite Hn in Hid. injection Hid as <-. eauto 10. }
  split.
  - intros q c. split.
    + intros (nq & Hq & Hc).
      destruct (Hlook q nq Hq) as [[-> ->]|(n & Hn & _ & _ & Hch)];
        [by apply elem_of_nil in Hc|].
      destruct Hch as [[-> Hch]|[Hpq Hch]]; rewrite Hch in Hc.
      * apply elem_of_app in Hc as [Hc| ->%list_elem_of_singleton].
        -- destruct (proj1 (Hcons q c)) as (nc & Hnc & Hpc); [eauto|].
           destruct (new_Node_lookup_old h f (Some q) c nc Hnc) as (nc' & ? & _ & ?).
           exists nc'. split; [done|congruence].
        -- eexists. split; [apply new_Node_lookup_new|done].
      * destruct (proj1 (Hcons q c)) as (nc & Hnc & Hpc); [eauto|].
        destruct (new_Node_lookup_old h f p c nc Hnc) as (nc' & ? & _ & ?).
        exists nc'. split; [done|congruence].
    + intros (nc & Hc & Hpc).
      destruct (Hlook c nc Hc) as [[-> ->]|(n & Hn & Hpn & _ & _)].
      * cbn in Hpc. subst p. pose proof (Hp q eq_refl) as Hq.
        destruct (lookup_lt_is_Some_2 h q Hq) as [nq Hnq].
        exists (add_child (length h) nq).
        split; [by apply new_Node_lookup_parent|].
        cbn. apply elem_of_app. right. by apply list_elem_of_singleton.
      * rewrite Hpn in Hpc.
        destruct (proj2 (Hcons q c)) as (nq & Hnq & Hcq); [eauto|].
        destruct (decide (p = Some q)) as [->|Hpq].
        -- exists (add_child (length h) nq).
           split; [by apply new_Node_lookup_parent|].
           cbn. apply elem_of_app. by left.
        -- exists nq. split; [|done].
           rewrite new_Node_lookup_ne; [done|by eapply lookup_lt_Some|done].
  - intros id n' Hid.
    destruct (Hlook id n' Hid) as [[-> ->]|(n & Hn & _ & _ & Hch)]; [constructor|].
    destruct Hch as [[-> Hch]|[_ Hch]]; rewrite Hch; [|by eapply Hnd].
    apply NoDup_app. split; [by eapply Hnd|]. split; [|apply NoDup_singleton].
    intros x Hx ->%list_elem_of_singleton.
    pose proof (Hwf id n Hn) as Hall. rewrite Forall_forall in Hall.
    specialize (Hall _ Hx). lia.
Qed.

Lemma adding_to_tree_store_valid h t c l i f h' t' c' l' :
  refs_ok h t c l →
  adding_to_tree h t c l i f = Ok (h', t', c', l') →
  h' = h ∨ ∃ p, valid_ref h p ∧ h' = (new_Node h f p).1.
Proof.
  intros [Hc Hpar] Hadd.
  destruct (adding_to_tree_cases _ _ _ _ _ _ _ Hadd)
    as [(_ & _ & Hr)|[(_ & _ & Hr)|[(_ & _ & Hr)|[(_ & _ & a & _ & Hr)
       |(_ & _ & p & Hp & Hr)]]]].
  - right. exists None. split; [done|congruence].
  - left. congruence.
  - right. exists c. split; [done|congruence].
  - left. congruence.
  - right. exists p. split; [|congruence].
    destruct (get_parent_valid h c Hpar Hc) as [Hw|(p' & Hp' & Hv)]; [congruence|].
    assert (p = p') as -> by congruence. exact Hv.
Qed.

(** X10: in the store [generate_tree] returns, parent links and children
    lists agree (a node is in the children of [p] exactly when its parent
    is [p]), no node is listed twice among the children of a node, and the
    children of a node were made after it. *)
Theorem links_are_consistent data fl r :
  generate_tree data fl = Ok r →
  consistent r.1
  ∧ ∀ id n, r.1 !! id = Some n →
            NoDup (children n) ∧ Forall (λ c, id < c < length r.1)%nat (children n).
Proof.
  unfold generate_tree.
  destruct (run fl initial data) as [st|] eqn:Hrun; [|done].
  cbn [mbind result_bind]. intros [= <-]. cbn [fst].
  assert (well_linked (store st)
          ∧ refs_ok (store st) (tree st) (curr_node st) (curr_lvl st))
    as [(Hwf & _ & Hcons & Hnd) _].
  { apply (run_invariant (λ h t c l, well_linked h ∧ refs_ok h t c l) (λ _, True))
      with (fl := fl) (data := data) (st := initial); try done.
    - intros h t c l i f h' t' c' l' [Hwl Hrefs] _ Hadd.
      split; [|by eapply refs_ok_step].
      destruct (adding_to_tree_store_valid _ _ _ _ _ _ _ _ _ _ Hrefs Hadd)
        as [->|(p & Hp & ->)]; [done|by apply new_Node_well_linked].
    - by apply Forall_true.
    - split; [|by split]. split; [done|]. split; [done|]. split; [|done].
      intros p c. split; intros (? & ? & _); done. }
  split; [exact Hcons|]. intros id n Hn. split; [by eapply Hnd|by apply Hwf].
Qed.

Lemma links_are_consistent_witness :
  ∃ r, generate_tree [(0, "A"); (1, "B"); (1, "C"); (2, "D"); (1, "E")]%string None
       = Ok r
       ∧ consistent r.1
       ∧ ∀ id n, r.1 !! id = Some n →
                 NoDup (children n)
                 ∧ Forall (λ c, id < c < length r.1)%nat (children n).
Proof.
  eexists. split; [reflexivity|].
  apply (links_are_consistent
           [(0, "A"); (1, "B"); (1, "C"); (2, "D"); (1, "E")]%string None).
  reflexivity.
Defined.

(** ** No node outside the tree *)

Lemma new_Node_rooted h f q :
  (q < length h)%nat → rooted_at_0 h (Some 0%nat) →
  rooted_at_0 (new_Node h f (Some q)).1 (Some 0%nat).
Proof.
  intros Hq [_ Hall]. split; [done|]. intros id n Hid.
  pose proof (lookup_lt_Some _ _ _ Hid) as Hlt. rewrite new_Node_length in Hlt.
  destruct (decide (id = length h)) as [->|Hne].
  - rewrite new_Node_lookup_new in Hid. injection Hid as <-. right. by exists q.
  - destruct (lookup_lt_is_Some_2 h id ltac:(lia)) as [n0 Hn0].
    destruct (new_Node_lookup_old h f (Some q) id n0 Hn0) as (n' & Hn' & _ & Hpar).
    rewrite Hn' in Hid. injection Hid as <-. rewrite Hpar. by apply Hall.
Qed.

Lemma loop_body_rooted fl st e st' :
  started fl st →
  cursor_ok (store st) (tree st) (curr_node st) (curr_lvl st) →
  rooted_at_0 (store st) (tree st) → 0 ≤ e.1 →
  loop_body fl st e = Ok st' → rooted_at_0 (store st') (tree st').
Proof.
  intros Hst Hcur Hroot Hi Hbody. destruct e as [i f]. cbn [fst] in Hi.
  destruct Hst as [[r Hr]|(Hnone & Hni & [fl' ->])].
  - destruct (loop_body_cases _ _ _ _ Hbody) as [(-> & -> & _)|Hadd]; [done|].
    cbn [fst snd] in Hadd. rewrite Hr in *.
    destruct Hcur as [?|(id & Hc & Hd)]; [done|].
    destruct Hroot as [-> Hall].
    pose proof (at_depth_nonneg _ _ _ Hd) as Hl.
    destruct (at_depth_get_name _ _ _ Hd) as (nd & Hnd & _).
    destruct (adding_to_tree_cases _ _ _ _ _ _ _ Hadd)
      as [(_ & ? & _)|[(_ & _ & Hres)|[(_ & _ & Hres)|[(_ & _ & a & _ & Hres)
         |(Hi0 & Hil & p & Hp & Hres)]]]]; [done| | | |].
    + assert (store st' = store st ∧ tree st' = Some 0%nat) as [-> ->]
        by (split; congruence). by split.
    + assert (store st' = (new_Node (store st) f (curr_node st)).1
              ∧ tree st' = Some 0%nat) as [-> ->] by (split; congruence).
      rewrite Hc. apply new_Node_rooted; [by eapply lookup_lt_Some|by split].
    + assert (store st' = store st ∧ tree st' = Some 0%nat) as [-> ->]
        by (split; congruence). by split.
    + rewrite Hc in Hp.
      destruct (at_depth_parent _ _ _ Hd ltac:(lia)) as (q & Hq & Hqd).
      destruct (at_depth_get_name _ _ _ Hqd) as (nq & Hnq & _).
      assert (p = Some q) as -> by congruence.
      assert (store st' = (new_Node (store st) f (Some q)).1
              ∧ tree st' = Some 0%nat) as [-> ->] by (split; congruence).
      apply new_Node_rooted; [by eapply lookup_lt_Some|by split].
  - rewrite Hnone in Hroot. cbn in Hroot.
    revert Hbody. unfold loop_body, add_entry. cbn [fst snd].
    rewrite Hni. cbn [child_of_filtered].
    destruct (Z.ltb_spec 0 i); [intros [= <-]; by rewrite Hnone, Hroot|].
    assert (i = 0) as -> by lia.
    destruct (filtered_out fl' f); [intros [= <-]; cbn; by rewrite Hnone, Hroot|].
    cbn [store tree curr_node curr_lvl with_next_index]. rewrite Hnone, Hroot.
    cbn. intros [= <-]. cbn. split; [done|].
    intros [|id] n; [|done]. cbn. intros [= <-]. by left.
Qed.

Lemma run_rooted fl data : ∀ st st',
  started fl st →
  cursor_ok (store st) (tree st) (curr_node st) (curr_lvl st) →
  rooted_at_0 (store st) (tree st) →
  Forall (λ e : entry, 0 ≤ e.1) data →
  run fl st data = Ok st' → rooted_at_0 (store st') (tree st').
Proof.
  unfold run. induction data as [|e data IH]; intros st st' Hst Hcur Hroot Hdata.
  { by intros [= <-]. }
  apply Forall_cons in Hdata as [He Hdata]. cbn [for_each].
  destruct (loop_body fl st e) as [st1|] eqn:Hbody; [|done].
  cbn [mbind result_bind]. apply IH; [| | |done].
  - eapply loop_body_started; eauto.
  - destruct (loop_body_cases _ _ _ _ Hbody) as [(-> & -> & -> & ->)|Hadd]; [done|].
    exact (cursor_ok_step _ _ _ _ _ _ _ _ _ _ Hcur He Hadd).
  - eapply loop_body_rooted; eauto.
Qed.

Lemma loop_body_initial_rooted fl function s0 :
  loop_body fl initial (0, function) = Ok s0 → rooted_at_0 (store s0) (tree s0).
Proof.
  assert (rooted_at_0 [mkNode function None []] (Some 0%nat)) as Hroot.
  { split; [done|]. intros [|id] n; [|done]. cbn. intros [= <-]. by left. }
  destruct fl as [fl|]; cbn.
  - destruct (filtered_out fl function); by intros [= <-].
  - by intros [= <-].
Qed.

(** X11: when the first entry is at depth 0 and no depth is negative, every
    node [generate_tree] makes hangs under the root it returns: the root is
    the first node made, it alone has no parent, and every other node has a
    parent made before it.  When no root is returned, no node was made. *)
Theorem every_node_hangs_under_the_root function rest fl r :
  Forall (λ e : entry, 0 ≤ e.1) rest →
  generate_tree ((0, function) :: rest) fl = Ok r →
  rooted_at_0 r.1 r.2.
Proof.
  intros Hrest. unfold generate_tree, run. cbn [for_each].
  destruct (loop_body_initial fl function) as (s0 & Hbody & Hst & (Hcur & _) & _).
  rewrite Hbody. cbn [mbind result_bind].
  destruct (for_each (loop_body fl) s0 rest) as [st|] eqn:Hrun; [|done].
  intros [= <-]. cbn [fst snd].
  apply (run_rooted fl rest s0 st); try done.
  by apply (loop_body_initial_rooted fl function).
Qed.

Lemma every_node_hangs_under_the_root_witness :
  ∃ r, generate_tree ((0, "A"%string) :: [(1, "B"); (1, "C"); (2, "D"); (0, "A"); (1, "E")]%string)
                     (Some ["A"%string]) = Ok r
       ∧ rooted_at_0 r.1 r.2.
Proof.
  eexists. split; [reflexivity|].
  apply (every_node_hangs_under_the_root "A"
           [(1, "B"); (1, "C"); (2, "D"); (0, "A"); (1, "E")]%string (Some ["A"%string])).
  - repeat constructor; simpl; lia.
  - reflexivity.
Defined.

(** * Further properties of the parser *)

Lemma parse_line_unmatched D st line :
  re_search D line = false → parse_line D st line = Ok st.
Proof. intros H. unfold parse_line. destruct st. by rewrite H. Qed.

Lemma parse_line_matched D parsed ML line :
  re_search D line = true →
  parse_line D (parsed, ML) line
  = (e ← entry_of_line line;
     Ok (parsed ++ [e], adding_to_module_list ML e.2)).
Proof.
  intros H. unfold parse_line, entry_of_line. rewrite H.
  destruct (item (split line) 3) as [w|]; [|done]. cbn [mbind result_bind].
  destruct (int _) as [index|]; [|done]. cbn [mbind result_bind].
  by destruct (item (split line) 4).
Qed.

(** X12: when no line matches the pattern, and so when there is no line,
    [parse_input_file] raises the ValueError of an input that could not be
    parsed, and leaves [MODULES_LIST] out of the question. *)
Theorem no_matching_line_raises data D ML :
  Forall (λ line, re_search D line = false) data →
  parse_input_file data D ML = Raise (ValueError CouldntParseInputFile).
Proof.
  intros Hdata. unfold parse_input_file.
  assert (for_each (parse_line D) ([], ML) data = Ok ([], ML)) as ->; [|done].
  generalize (@nil entry, ML).
  induction Hdata as [|line data Hline _ IH]; intros st; [done|].
  cbn [for_each]. rewrite parse_line_unmatched by done. apply IH.
Qed.

Lemma no_matching_line_raises_witness :
  parse_input_file ["Tracing ntdll!RtlAllocateHeap to return address 7ff6"%string;
                    "    3     0 [ 12] ntdll!f"%string; ""%string] 9 []
  = Raise (ValueError CouldntParseInputFile).
Proof. apply no_matching_line_raises. repeat constructor. Defined.

Lemma parse_loop_entries D data : ∀ parsed ML parsed' ML',
  for_each (parse_line D) (parsed, ML) data = Ok (parsed', ML') →
  ∃ new, parsed' = parsed ++ new
         ∧ Forall2 (λ line e, entry_of_line line = Ok e)
                   (List.filter (re_search D) data) new.
Proof.
  induction data as [|line data IH]; intros parsed ML parsed' ML'; cbn [for_each].
  { intros [= <- <-]. exists []. by rewrite app_nil_r. }
  cbn [List.filter]. destruct (re_search D line) eqn:Hm.
  - rewrite parse_line_matched by done.
    destruct (entry_of_line line) as [e|] eqn:He; [|done].
    cbn [mbind result_bind]. intros Hrest.
    destruct (IH _ _ _ _ Hrest) as (new & -> & Hnew).
    exists (e :: new). rewrite <- app_assoc. split; [done|]. by constructor.
  - rewrite parse_line_unmatched by done. cbn [mbind result_bind]. apply IH.
Qed.

(** X13: what [parse_input_file] returns is read from the lines that match
    the pattern, one entry for each, in their order, and it is not empty;
    the other lines add nothing. *)
Theorem entries_are_the_matching_lines data D ML entries ML' :
  parse_input_file data D ML = Ok (entries, ML') →
  Forall2 (λ line e, entry_of_line line = Ok e) (List.filter (re_search D) data) entries
  ∧ entries ≠ []
  ∧ length entries = length (List.filter (re_search D) data).
Proof.
  unfold parse_input_file.
  destruct (for_each _ _ data) as [[parsed ML0]|] eqn:Hloop; [|done].
  cbn [mbind result_bind fst]. destruct (decide (parsed = [])); [done|].
  intros [= <- <-].
  destruct (parse_loop_entries _ _ _ _ _ _ Hloop) as (new & -> & Hnew).
  cbn [app] in *. split; [done|]. split; [done|].
  symmetry. by eapply Forall2_length.
Qed.

Lemma entries_are_the_matching_lines_witness :
  Forall2 (λ line e, entry_of_line line = Ok e)
          (List.filter (re_search 1)
             [wt_line "0" "ntdll!f"; "some other line"%string; wt_line "2" "ntdll!g";
              wt_line "1" "ntdll!h"])
          [(0, "ntdll!f"); (1, "ntdll!h")]%string
  ∧ [(0, "ntdll!f"); (1, "ntdll!h")]%string ≠ []
  ∧ length [(0, "ntdll!f"); (1, "ntdll!h")]%string
    = length (List.filter (re_search 1)
                [wt_line "0" "ntdll!f"; "some other line"%string; wt_line "2" "ntdll!g";
                 wt_line "1" "ntdll!h"]).
Proof.
  apply (entries_are_the_matching_lines _ 1 [] _ ["ntdll"%string]). reflexivity.
Defined.

(** The exception of a line is the exception of the parser, when the lines
    before it were read without one. *)
Lemma parse_input_file_raises pre line post D ML st e :
  for_each (parse_line D) ([], ML) pre = Ok st →
  parse_line D st line = Raise e →
  parse_input_file (pre ++ line :: post) D ML = Raise e.
Proof.
  intros Hpre Hline. unfold parse_input_file.
  assert (for_each (parse_line D) ([], ML) (pre ++ line :: post) = Raise e) as ->;
    [|done].
  revert Hpre. generalize (@nil entry, ML).
  induction pre as [|l pre IH]; intros st0; cbn [app for_each].
  - intros [= ->]. by rewrite Hline.
  - destruct (parse_line D st0 l) as [st1|]; [|done]. cbn [mbind result_bind]. apply IH.
Qed.

(** X14: a line that matches the pattern and has fewer than five words
    stops the parser: it raises IndexError, or the ValueError of [int] when
    the fourth word is not a number, whatever lines follow. *)
Theorem matching_line_needs_five_words pre line post D ML st :
  for_each (parse_line D) ([], ML) pre = Ok st →
  re_search D line = true →
  (length (split line) < 5)%nat →
  parse_input_file (pre ++ line :: post) D ML = Raise IndexError
  ∨ ∃ w, item (split line) 3 = Ok w
         ∧ parse_input_file (pre ++ line :: post) D ML
           = Raise (ValueError (InvalidLiteral (remove_char "]" w))).
Proof.
  intros Hpre Hm Hlen. destruct st as [parsed ML0].
  pose proof (parse_line_matched D parsed ML0 line Hm) as Hline.
  unfold entry_of_line, item in Hline.
  destruct (split line !! 3%nat) as [w|] eqn:Hw.
  - cbn [mbind result_bind] in Hline. unfold int in Hline.
    destruct (match remove_char "]" w with
              | String "-" s' => Z.opp <$> int_unsigned s'
              | String "+" s' => int_unsigned s'
              | _ => int_unsigned (remove_char "]" w)
              end) as [z|] eqn:Hint.
    + left. cbn [mbind result_bind] in Hline.
      rewrite (lookup_ge_None_2 (split line) 4) in Hline by lia.
      by eapply parse_input_file_raises.
    + right. exists w. split; [by unfold item; rewrite Hw|].
      by eapply parse_input_file_raises.
  - left. by eapply parse_input_file_raises.
Qed.

Lemma matching_line_needs_five_words_witness :
  parse_input_file ([wt_line "0" "ntdll!f"] ++ "[  1] ntdll!g"%string :: []) 9 []
  = Raise IndexError
  ∨ ∃ w, item (split "[  1] ntdll!g") 3 = Ok w
         ∧ parse_input_file ([wt_line "0" "ntdll!f"] ++ "[  1] ntdll!g"%string :: []) 9 []
           = Raise (ValueError (InvalidLiteral (remove_char "]" w))).
Proof.
  eapply matching_line_needs_five_words.
  - reflexivity.
  - reflexivity.
  - vm_compute. lia.
Defined.

(** ** The module list *)

Lemma adding_to_module_list_keeps ML f :
  NoDup ML →
  NoDup (adding_to_module_list ML f)
  ∧ ML `prefix_of` adding_to_module_list ML f
  ∧ (""%string ∉ ML → ""%string ∉ adding_to_module_list ML f).
Proof.
  intros Hnd. unfold adding_to_module_list.
  destruct (String.eqb_spec (before_first "!" f) "") as [He|Hne]; [done|].
  destruct (existsb _ ML) eqn:Hex; [done|].
  assert (before_first "!" f ∉ ML) as Hnot.
  { intros Hin%existsb_eqb_elem. congruence. }
  split; [|split].
  - apply NoDup_app. split; [done|]. split; [|apply NoDup_singleton].
    intros x Hx ->%list_elem_of_singleton. done.
  - by apply prefix_app_r.
  - intros Hno [Hin|Hin%list_elem_of_singleton]%elem_of_app; [done|congruence].
Qed.

(** X15: [parse_input_file] only appends to [MODULES_LIST]: the modules
    recorded before keep their place, no module is recorded twice, and the
    empty module is not recorded. *)
Theorem module_list_is_extended data D ML entries ML' :
  NoDup ML →
  parse_input_file data D ML = Ok (entries, ML') →
  NoDup ML' ∧ ML `prefix_of` ML' ∧ (""%string ∉ ML → ""%string ∉ ML').
Proof.
  intros Hnd. unfold parse_input_file.
  destruct (for_each _ _ data) as [[parsed ML0]|] eqn:Hloop; [|done].
  cbn [mbind result_bind fst]. destruct (decide (parsed = [])); [done|].
  intros [= <- <-].
  apply (for_each_invariant (parse_line D)
           (λ st, NoDup st.2 ∧ ML `prefix_of` st.2 ∧ (""%string ∉ ML → ""%string ∉ st.2)))
    with (xs := data) (st := ([], ML)) (st' := (parsed, ML0)); [|done|done].
  intros [p m] line [p' m'] (Hnd0 & Hpre & Hno). cbn [fst snd] in *.
  destruct (re_search D line) eqn:Hm.
  - rewrite parse_line_matched by done.
    destruct (entry_of_line line) as [e|]; [|done]. cbn [mbind result_bind].
    intros [= <- <-].
    destruct (adding_to_module_list_keeps m e.2 Hnd0) as (? & ? & ?).
    split; [done|]. split; [by etrans|auto].
  - rewrite parse_line_unmatched by done. by intros [= <- <-].
Qed.

Lemma module_list_is_extended_witness :
  NoDup ["kernel32"; "ntdll"; "ucrtbase"]%string
  ∧ ["kernel32"%string] `prefix_of` ["kernel32"; "ntdll"; "ucrtbase"]%string
  ∧ (""%string ∉ ["kernel32"%string] → ""%string ∉ ["kernel32"; "ntdll"; "ucrtbase"]%string).
Proof.
  apply (module_list_is_extended
           [wt_line "0" "ntdll!f"; wt_line "1" "kernel32!g"; wt_line "1" "!h";
            wt_line "2" "ucrtbase!i"; wt_line "1" "ntdll!j"]
           9 ["kernel32"%string]
           [(0, "ntdll!f"); (1, "kernel32!g"); (1, "!h"); (2, "ucrtbase!i");
            (1, "ntdll!j")]%string).
  - apply NoDup_singleton.
  - reflexivity.
Defined.

(** ** Words *)

Lemma no_space_app s t : no_space (s +:+ t) = no_space s && no_space t.
Proof.
  induction s as [|c s IH]; [done|]. simpl. rewrite IH. by rewrite andb_assoc.
Qed.

Lemma is_word_snoc cur c :
  no_space cur = true → is_space c = false →
  is_word (cur +:+ String c "") = true.
Proof.
  intros Hcur Hc. unfold is_word. rewrite no_space_app, Hcur. cbn. rewrite Hc.
  destruct cur; done.
Qed.

(** The words [split] returns are not empty and hold no space character. *)
Lemma split_from_words s : ∀ cur,
  (cur = ""%string ∨ is_word cur = true) →
  Forall (λ w, is_word w = true) (split_from cur s).
Proof.
  induction s as [|c s IH]; intros cur Hcur; cbn [split_from].
  - destruct (String.eqb_spec cur ""); [constructor|].
    destruct Hcur as [?|?]; [done|by repeat constructor].
  - destruct (is_space c) eqn:Hc.
    + destruct (String.eqb_spec cur "").
      * apply IH. by left.
      * destruct Hcur as [?|?]; [done|]. constructor; [done|]. apply IH. by left.
    + apply IH. right. apply is_word_snoc; [|done].
      destruct Hcur as [->|[_ H]%andb_prop]; done.
Qed.

Lemma entry_of_line_word line e : entry_of_line line = Ok e → is_word e.2 = true.
Proof.
  unfold entry_of_line.
  destruct (item (split line) 3) as [w|]; [|done]. cbn [mbind result_bind].
  destruct (int _) as [index|]; [|done]. cbn [mbind result_bind].
  unfold item. destruct (split line !! 4%nat) as [f|] eqn:Hf; [|done].
  intros [= <-]. cbn [snd].
  pose proof (split_from_words line "" ltac:(by left)) as Hall.
  rewrite Forall_forall in Hall. apply Hall, list_elem_of_lookup. eauto.
Qed.

(** X16: the labels [parse_input_file] returns are words: none is empty,
    none holds a space character. *)
Theorem labels_are_words data D ML entries ML' e :
  parse_input_file data D ML = Ok (entries, ML') →
  e ∈ entries →
  is_word e.2 = true.
Proof.
  unfold parse_input_file.
  destruct (for_each _ _ data) as [[parsed ML0]|] eqn:Hloop; [|done].
  cbn [mbind result_bind fst]. destruct (decide (parsed = [])); [done|].
  intros [= <- <-] He.
  destruct (parse_loop_entries _ _ _ _ _ _ Hloop) as (new & -> & Hnew).
  cbn [app] in He. apply list_elem_of_lookup in He as [i Hi].
  destruct (Forall2_lookup_r _ _ _ _ _ Hnew Hi) as (line & _ & Hline).
  by apply (entry_of_line_word line).
Qed.

Lemma labels_are_words_witness : is_word (1, "kernel32!g"%string).2 = true.
Proof.
  apply (labels_are_words
           [wt_line "0" "ntdll!f"; wt_line "1" "kernel32!g"] 9 []
           [(0, "ntdll!f"); (1, "kernel32!g")]%string ["ntdll"; "kernel32"]%string).
  - reflexivity.
  - apply elem_of_cons. right. apply elem_of_cons. by left.
Defined.

(** ** The depth bound *)

Lemma str_level_code D : (D ≤ 9)%nat → code (str_level D) = N.of_nat (48 + D).
Proof.
  intros HD. do 10 (destruct D as [|D]; [reflexivity|]). lia.
Qed.

Lemma depth_marker_here_mono D D' s :
  (D ≤ D')%nat → (D' ≤ 9)%nat →
  depth_marker_here D s = true → depth_marker_here D' s = true.
Proof.
  intros HD HD'. unfold depth_marker_here.
  destruct s as [|c0 [|c1 [|c2 [|d s]]]]; try done.
  rewrite !str_level_code by lia.
  destruct (Ascii.eqb c0 "[") eqn:H0; [apply Ascii.eqb_eq in H0 as ->|];
    [destruct (Ascii.eqb c1 " ") eqn:H1; [apply Ascii.eqb_eq in H1 as ->|];
     [destruct (Ascii.eqb c2 " ") eqn:H2; [apply Ascii.eqb_eq in H2 as ->|]|]|].
  - intros [[Hlo Hhi%N.leb_le]%andb_prop Hrest]%andb_prop.
    rewrite Hlo, Hrest. cbn. rewrite andb_true_r. apply N.leb_le. lia.
  - intros H. exfalso. revert H H2. clear.
    destruct c2 as [[] [] [] [] [] [] [] []]; cbn; congruence.
  - intros H. exfalso. revert H H1. clear.
    destruct c1 as [[] [] [] [] [] [] [] []]; cbn; congruence.
  - intros H. exfalso. revert H H0. clear.
    destruct c0 as [[] [] [] [] [] [] [] []]; cbn; congruence.
Qed.

Lemma re_search_mono D D' line :
  (D ≤ D')%nat → (D' ≤ 9)%nat →
  re_search D line = true → re_search D' line = true.
Proof.
  intros HD HD'. induction line as [|c line IH]; cbn [re_search].
  - rewrite !orb_false_r. by apply depth_marker_here_mono.
  - intros [H|H]%orb_prop.
    + by rewrite (depth_marker_here_mono D D' _ HD HD' H).
    + rewrite (IH H). apply orb_true_r.
Qed.

(** X17: raising the maximum depth, up to 9, loses no line: the lines
    that match the pattern at a maximum depth match it at any greater one,
    so that the lines read at the lesser depth are among the lines read at
    the greater. *)
Theorem greater_depth_reads_more D D' data :
  (D ≤ D')%nat → (D' ≤ 9)%nat →
  List.filter (re_search D) data `sublist_of` List.filter (re_search D') data.
Proof.
  intros HD HD'. induction data as [|line data IH]; [done|]. cbn [List.filter].
  destruct (re_search D line) eqn:Hm.
  - rewrite (re_search_mono D D' line HD HD' Hm). by apply sublist_skip.
  - destruct (re_search D' line); [by apply sublist_cons|done].
Qed.

Lemma greater_depth_reads_more_witness :
  List.filter (re_search 1) [wt_line "0" "a!f"; wt_line "1" "a!g"; wt_line "2" "a!h"]
  `sublist_of`
  List.filter (re_search 2) [wt_line "0" "a!f"; wt_line "1" "a!g"; wt_line "2" "a!h"].
Proof. apply greater_depth_reads_more; lia. Defined.

(** ** Reading back the lines of entries *)

#[local] Arguments String.append !s1 s2 : simpl nomatch.

Lemma append_nil_r s : s +:+ "" = s.
Proof. induction s as [|c s IH]; simpl; [done|by rewrite IH]. Qed.

Lemma append_snoc s c t : (s +:+ String c "") +:+ t = s +:+ String c t.
Proof. induction s as [|c' s IH]; simpl; [done|by rewrite IH]. Qed.

Lemma space_is_not_line_feed c : is_space c = false → Ascii.eqb c "010" = false.
Proof. destruct (Ascii.eqb_spec c "010") as [->|]; [discriminate|done]. Qed.

Lemma rest_of_line_word f : no_space f = true → rest_of_line (f +:+ LF) = true.
Proof.
  induction f as [|c f IH]; [done|]. simpl.
  intros [Hc%negb_true_iff Hf]%andb_prop.
  rewrite (space_is_not_line_feed c Hc). by apply IH.
Qed.

Lemma split_from_word f : ∀ cur,
  no_space f = true → cur +:+ f ≠ ""%string →
  split_from cur (f +:+ LF) = [cur +:+ f].
Proof.
  induction f as [|c f IH]; intros cur Hf Hne.
  - rewrite (append_nil_r cur) in Hne. rewrite (append_nil_r cur). cbn.
    by destruct (String.eqb_spec cur "").
  - simpl in Hf. apply andb_prop in Hf as [Hc%negb_true_iff Hf].
    simpl. rewrite Hc. rewrite IH; [by rewrite append_snoc|done|].
    rewrite append_snoc. by destruct cur.
Qed.

Lemma re_search_skip D pre s : re_search D s = true → re_search D (pre +:+ s) = true.
Proof.
  intros Hs. induction pre as [|c pre IH]; [done|].
  change (String c pre +:+ s) with (String c (pre +:+ s)).
  cbn [re_search]. rewrite IH. apply orb_true_r.
Qed.

Lemma digit_code d : (d ≤ 9)%nat → code (ascii_of_nat (48 + d)) = N.of_nat (48 + d).
Proof. intros Hd. do 10 (destruct d as [|d]; [reflexivity|]). lia. Qed.

Lemma rest_of_line_cons c s :
  Ascii.eqb c "010" = false → rest_of_line (String c s) = rest_of_line s.
Proof. intros H. cbn [rest_of_line]. by rewrite H. Qed.

Lemma re_search_line_of D e :
  (D ≤ 9)%nat → 0 ≤ e.1 ≤ Z.of_nat D → is_word e.2 = true →
  re_search D (line_of e) = true.
Proof.
  intros HD He [_ Hw]%andb_prop. unfold line_of, wt_line, digit_text.
  apply (re_search_skip D "    3     0 ").
  cbn [String.append]. cbn [re_search]. apply orb_true_iff. left.
  cbn [depth_marker_here]. rewrite digit_code, str_level_code by lia.
  rewrite !rest_of_line_cons by reflexivity.
  rewrite rest_of_line_word by done.
  rewrite andb_true_r. apply andb_true_iff. split; apply N.leb_le.
  - change (code "0") with 48%N. lia.
  - lia.
Qed.

Lemma entry_of_line_of e :
  0 ≤ e.1 ≤ 9 → is_word e.2 = true → entry_of_line (line_of e) = Ok e.
Proof.
  intros He Hw. destruct e as [i f]. cbn [fst snd] in *.
  apply andb_prop in Hw as [Hne%negb_true_iff Hf].
  assert (f ≠ ""%string) as Hne' by (by intros ->).
  assert (∃ d, (d ≤ 9)%nat ∧ i = Z.of_nat d) as (d & Hd & ->)
    by (exists (Z.to_nat i); lia).
  unfold entry_of_line, line_of, wt_line, split. cbn [fst snd].
  rewrite Nat2Z.id.
  do 10 (destruct d as [|d];
         [simpl; rewrite (split_from_word f "") by done; reflexivity|]).
  lia.
Qed.

Lemma parse_loop_line_of D entries : ∀ parsed ML,
  (D ≤ 9)%nat →
  Forall (λ e : entry, 0 ≤ e.1 ≤ Z.of_nat D ∧ is_word e.2 = true) entries →
  for_each (parse_line D) (parsed, ML) (line_of <$> entries)
  = Ok (parsed ++ entries, foldl adding_to_module_list ML entries.*2).
Proof.
  induction entries as [|e entries IH]; intros parsed ML HD Hall.
  { cbn. by rewrite app_nil_r. }
  apply Forall_cons in Hall as [[He Hw] Hall].
  cbn [fmap list_fmap for_each].
  rewrite parse_line_matched by (by apply re_search_line_of).
  rewrite entry_of_line_of by (done || lia). cbn [mbind result_bind].
  rewrite IH by done. cbn. by rewrite <- app_assoc.
Qed.

(** X18: the parser reads back the record lines of entries: for a maximum
    depth of at most 9 and entries, at least one, whose depths are from 0 to
    the maximum depth and whose labels are words, [parse_input_file] on
    their record lines returns these entries, in order, and has recorded
    the module of each in turn. *)
Theorem record_lines_are_read_back D entries ML :
  (D ≤ 9)%nat →
  entries ≠ [] →
  Forall (λ e : entry, 0 ≤ e.1 ≤ Z.of_nat D ∧ is_word e.2 = true) entries →
  parse_input_file (line_of <$> entries) D ML
  = Ok (entries, foldl adding_to_module_list ML entries.*2).
Proof.
  intros HD Hne Hall. unfold parse_input_file.
  rewrite parse_loop_line_of by done. cbn [mbind result_bind fst app].
  by destruct (decide (entries = [])).
Qed.

Lemma record_lines_are_read_back_witness :
  parse_input_file (line_of <$> [(0, "ntdll!A"); (1, "kernel32!B"); (2, "!C"); (1, "ntdll!D")]%string)
                   2 []
  = Ok ([(0, "ntdll!A"); (1, "kernel32!B"); (2, "!C"); (1, "ntdll!D")]%string,
        foldl adding_to_module_list []
              [(0, "ntdll!A"); (1, "kernel32!B"); (2, "!C"); (1, "ntdll!D")]%string.*2).
Proof.
  apply record_lines_are_read_back.
  - lia.
  - discriminate.
  - repeat constructor; simpl; lia.
Defined.

(** * Further properties of the node attributes *)

Lemma list_index_lookup ML : ∀ i m,
  NoDup ML → ML !! i = Some m → list_index m ML = Ok i.
Proof.
  induction ML as [|y ML IH]; intros i m Hnd Hi; [done|].
  apply NoDup_cons in Hnd as [Hy Hnd]. cbn [list_index].
  destruct i as [|i]; cbn in Hi.
  - injection Hi as ->. by rewrite String.eqb_refl.
  - destruct (String.eqb_spec y m) as [->|Hne].
    + exfalso. apply Hy, list_elem_of_lookup. eauto.
    + by rewrite (IH i m Hnd Hi).
Qed.

Lemma attribute_loop_value ML rest m i :
  m ∈ rest → list_index m ML = Ok i →
  attribute_loop ML rest m = Ok (attributes (default "grey"%string (colors !! i))).
Proof.
  intros Hrest Hidx. induction rest as [|y rest IH]; [by apply elem_of_nil in Hrest|].
  cbn [attribute_loop]. destruct (String.eqb_spec m y) as [<-|Hne].
  - rewrite Hidx. cbn [mbind result_bind].
    destruct (Nat.leb_spec (length colors) i) as [Hge|Hlt].
    + by rewrite (lookup_ge_None_2 colors i Hge).
    + unfold item. by destruct (lookup_lt_is_Some_2 colors i Hlt) as [col ->].
  - apply elem_of_cons in Hrest as [->|Hrest]; [done|]. by apply IH.
Qed.

(** X19: the attributes of a node go by the place of its module in
    [MODULES_LIST]: the module at place [i] of a list without repetition
    gets the colour at place [i] of the palette, and grey from the twelfth
    module on. *)
Theorem attributes_go_by_place ML i node :
  NoDup ML →
  ML !! i = Some (before_first "!" (name node)) →
  determine_node_att ML node
  = Ok (attributes (default "grey"%string (colors !! i)))
  ∧ ((11 ≤ i)%nat → determine_node_att ML node = Ok (attributes "grey")).
Proof.
  intros Hnd Hi.
  assert (determine_node_att ML node
          = Ok (attributes (default "grey"%string (colors !! i)))) as Hatt.
  { unfold determine_node_att. apply attribute_loop_value.
    - apply list_elem_of_lookup. eauto.
    - by apply list_index_lookup. }
  split; [exact Hatt|]. intros Hge. rewrite Hatt.
  by rewrite (lookup_ge_None_2 colors i Hge).
Qed.

Lemma attributes_go_by_place_witness :
  determine_node_att ["ntdll"; "kernel32"; "ucrtbase"]%string (mkNode "ucrtbase!f" None [])
  = Ok (attributes (default "grey"%string (colors !! 2%nat)))
  ∧ ((11 ≤ 2)%nat →
     determine_node_att ["ntdll"; "kernel32"; "ucrtbase"]%string
                        (mkNode "ucrtbase!f" None []) = Ok (attributes "grey")).
Proof.
  apply attributes_go_by_place.
  - apply (bool_decide_unpack _). reflexivity.
  - reflexivity.
Defined.

Lemma colors_NoDup : NoDup colors.
Proof. apply (bool_decide_unpack _). reflexivity. Qed.

(** X20: among the first eleven modules of a [MODULES_LIST] without
    repetition, two nodes get the same attributes exactly when they have
    the same module. *)
Theorem same_attributes_same_module ML i j n1 n2 :
  NoDup ML →
  ML !! i = Some (before_first "!" (name n1)) →
  ML !! j = Some (before_first "!" (name n2)) →
  (i < 11)%nat → (j < 11)%nat →
  determine_node_att ML n1 = determine_node_att ML n2
  ↔ before_first "!" (name n1) = before_first "!" (name n2).
Proof.
  intros Hnd Hi Hj Hi11 Hj11.
  assert (determine_node_att ML n1
          = Ok (attributes (default "grey"%string (colors !! i)))) as ->.
  { unfold determine_node_att. apply attribute_loop_value.
    - apply list_elem_of_lookup. eauto.
    - by apply list_index_lookup. }
  assert (determine_node_att ML n2
          = Ok (attributes (default "grey"%string (colors !! j)))) as ->.
  { unfold determine_node_att. apply attribute_loop_value.
    - apply list_elem_of_lookup. eauto.
    - by apply list_index_lookup. }
  destruct (lookup_lt_is_Some_2 colors i Hi11) as [ci Hci].
  destruct (lookup_lt_is_Some_2 colors j Hj11) as [cj Hcj].
  rewrite Hci, Hcj. cbn [default]. split.
  - intros [= <-].
    assert (i = j) as -> by exact (NoDup_lookup colors i j ci colors_NoDup Hci Hcj).
    congruence.
  - intros Heq. rewrite Heq in Hi.
    assert (i = j) as -> by (eapply NoDup_lookup; eauto).
    congruence.
Qed.

Lemma same_attributes_same_module_witness :
  determine_node_att ["ntdll"; "kernel32"]%string (mkNode "ntdll!f" None [])
  = determine_node_att ["ntdll"; "kernel32"]%string (mkNode "kernel32!g" None [])
  ↔ before_first "!" (name (mkNode "ntdll!f" None []))
    = before_first "!" (name (mkNode "kernel32!g" None [])).
Proof.
  apply (same_attributes_same_module ["ntdll"; "kernel32"]%string 0 1).
  - apply (bool_decide_unpack _). reflexivity.
  - reflexivity.
  - reflexivity.
  - lia.
  - lia.
Defined.

(** * The filter presets *)

Lemma filtered_out_mono fl fl' function :
  fl ⊆ fl' → filtered_out fl function = true → filtered_out fl' function = true.
Proof.
  intros Hsub. unfold filtered_out. rewrite !existsb_exists.
  intros (w & Hw & Hfind). exists w. split; [|done].
  by apply list_elem_of_In, Hsub, list_elem_of_In.
Qed.

(** X21: the presets grow with the level, and keep the words given on the
    command line: a label suppressed at the light level is suppressed at
    the medium level, one suppressed at the medium level is suppressed at
    the high level, and a label that holds a word of the command line is
    suppressed at every level. *)
Theorem heavier_level_suppresses_more filters_words function :
  (filtered_out (extend_filters_words "light" filters_words) function = true →
   filtered_out (extend_filters_words "medium" filters_words) function = true)
  ∧ (filtered_out (extend_filters_words "medium" filters_words) function = true →
     filtered_out (extend_filters_words "high" filters_words) function = true)
  ∧ ∀ filter_level,
      filtered_out filters_words function = true →
      filtered_out (extend_filters_words filter_level filters_words) function = true.
Proof.
  split; [|split].
  - apply filtered_out_mono. cbn [extend_filters_words String.eqb Ascii.eqb Bool.eqb].
    intros w. rewrite !elem_of_app. tauto.
  - apply filtered_out_mono. cbn [extend_filters_words String.eqb Ascii.eqb Bool.eqb].
    intros w. rewrite !elem_of_app. tauto.
  - intros lvl. apply filtered_out_mono. unfold extend_filters_words.
    intros w Hw. repeat case_match; rewrite ?elem_of_app; tauto.
Qed.

(** * The lines written to the dot file *)

Lemma append_assoc s t u : (s +:+ t) +:+ u = s +:+ (t +:+ u).
Proof. induction s as [|c s IH]; simpl; [done|by rewrite IH]. Qed.

Lemma concat_lines_app l k : concat_lines (l ++ k) = concat_lines l +:+ concat_lines k.
Proof.
  induction l as [|x l IH]; [done|]. cbn [app concat_lines foldr].
  fold (concat_lines (l ++ k)). fold (concat_lines l).
  by rewrite IH, append_assoc.
Qed.

Lemma write_loop dot_tree : ∀ dot_file lines_seen,
  NoDup lines_seen →
  ∃ new,
    fold_left write_line dot_tree (dot_file, lines_seen)
    = (dot_file +:+ concat_lines new, lines_seen ++ new)
    ∧ NoDup (lines_seen ++ new)
    ∧ new `sublist_of` dot_tree
    ∧ (∀ line, line ∈ lines_seen ++ new ↔ line ∈ lines_seen ∨ line ∈ dot_tree)
    ∧ ((∀ line, line ∈ dot_tree → line ∉ lines_seen) → NoDup dot_tree →
       new = dot_tree).
Proof.
  induction dot_tree as [|line dot_tree IH]; intros dot_file lines_seen Hnd.
  { exists []. cbn. rewrite app_nil_r, append_nil_r.
    split; [done|]. split; [done|]. split; [done|]. split; [|done].
    intros l. rewrite elem_of_nil. tauto. }
  cbn [fold_left write_line].
  destruct (existsb (String.eqb line) lines_seen) eqn:Hseen.
  - apply existsb_eqb_elem in Hseen.
    destruct (IH dot_file lines_seen Hnd) as (new & -> & Hnd' & Hsub & Hin & Hall).
    exists new. split; [done|]. split; [done|]. split; [by apply sublist_cons|].
    split.
    + intros l. rewrite Hin, elem_of_cons. split; [tauto|].
      intros [?|[->|?]]; tauto.
    + intros Hfresh _. exfalso. apply (Hfresh line); [by left|done].
  - assert (line ∉ lines_seen) as Hnot.
    { intros Hin%existsb_eqb_elem. congruence. }
    assert (NoDup (lines_seen ++ [line])) as Hnd1.
    { apply NoDup_app. split; [done|]. split; [|apply NoDup_singleton].
      intros x Hx ->%list_elem_of_singleton. done. }
    destruct (IH (dot_file +:+ line) (lines_seen ++ [line]) Hnd1)
      as (new & -> & Hnd' & Hsub & Hin & Hall).
    exists (line :: new). rewrite <- !app_assoc in *. cbn [app] in *.
    split.
    { f_equal. cbn [concat_lines foldr]. fold (concat_lines new).
      by rewrite append_assoc. }
    split; [done|]. split; [by apply sublist_skip|]. split.
    + intros l. rewrite Hin, elem_of_app, list_elem_of_singleton, elem_of_cons. tauto.
    + intros Hfresh [Hline Hnd2]%NoDup_cons. f_equal. apply Hall; [|done].
      intros l Hl [Hin'|Hin'%list_elem_of_singleton]%elem_of_app.
      * apply (Hfresh l); [by right|done].
      * by subst l.
Qed.

(** X22: the loop of [generate_png] writes each line of the dot export
    once, at its first occurrence: the text of the file is the text of the
    lines seen, one after the other; the lines seen are without repetition,
    are the lines of the export, and keep their order; an export without
    repetition is written as it is. *)
Theorem dot_lines_are_written_once dot_tree :
  let '(dot_file, lines_seen) := write_dot_lines dot_tree in
  dot_file = concat_lines lines_seen
  ∧ NoDup lines_seen
  ∧ lines_seen `sublist_of` dot_tree
  ∧ (∀ line, line ∈ lines_seen ↔ line ∈ dot_tree)
  ∧ (NoDup dot_tree → lines_seen = dot_tree).
Proof.
  unfold write_dot_lines.
  destruct (write_loop dot_tree "" [] (NoDup_nil_2 (A:=string)))
    as (new & -> & Hnd & Hsub & Hin & Hall).
  cbn [app] in *. split; [done|]. split; [done|]. split; [done|]. split.
  - intros line. rewrite Hin, elem_of_nil. tauto.
  - apply Hall. intros line _. apply not_elem_of_nil.
Qed.

(** * From the lines to the two trees *)

Lemma preorder_steps_nonneg rest : ∀ prev,
  preorder_steps prev rest = true → Forall (λ e : entry, 0 ≤ e.1) rest.
Proof.
  induction rest as [|e rest IH]; intros prev; [constructor|].
  cbn [preorder_steps]. intros [[Hlo%Z.leb_le _]%andb_prop Hrest]%andb_prop.
  constructor; [done|]. by apply (IH e.1).
Qed.

Lemma preorder_trace_nonneg data :
  preorder_trace data = true → data ≠ [] ∧ Forall (λ e : entry, 0 ≤ e.1) data.
Proof.
  destruct data as [|e rest]; [done|]. cbn [preorder_trace].
  intros [He%Z.eqb_eq Hrest]%andb_prop. split; [done|].
  constructor; [lia|]. by apply (preorder_steps_nonneg rest 0).
Qed.

Lemma preorder_trace_run data fl :
  preorder_trace data = true →
  ∃ st, run fl initial data = Ok st ∧ (fl = None → is_Some (tree st)).
Proof.
  destruct data as [|[i f] rest]; [done|]. cbn [preorder_trace fst].
  intros [->%Z.eqb_eq Hrest]%andb_prop.
  destruct (loop_body_initial fl f) as (s0 & Hbody & Hst & Hinv & Hside).
  destruct (trace_inv_run fl rest 0 s0 Hinv Hside Hrest) as (st' & Hrun & Hsome).
  exists st'. unfold run in *. cbn [for_each]. rewrite Hbody. split; [exact Hrun|].
  intros ->. apply Hsome. destruct Hst as [Hs|(_ & _ & [? [=]])]. exact Hs.
Qed.

(** X23: from the record lines of a pre-order walk to the two trees: for a
    maximum depth of at most 9 and entries that are a pre-order walk, with
    depths up to the maximum depth and labels that are words, the parser
    reads the entries back from their record lines and both builds return:
    the full tree, with a root, and the filtered tree, for any filter
    words. *)
Theorem record_lines_build_both_trees D entries filters_words :
  (D ≤ 9)%nat →
  preorder_trace entries = true →
  Forall (λ e : entry, e.1 ≤ Z.of_nat D ∧ is_word e.2 = true) entries →
  ∃ full filtered,
    build_trees (line_of <$> entries) D filters_words []
    = Ok (full, filtered, foldl adding_to_module_list [] entries.*2)
    ∧ generate_tree entries None = Ok full
    ∧ is_Some full.2
    ∧ generate_tree entries (Some filters_words) = Ok filtered.
Proof.
  intros HD Htrace Hall.
  destruct (preorder_trace_nonneg entries Htrace) as [Hne Hnonneg].
  destruct (preorder_trace_run entries None Htrace) as (su & Hu & Hroot).
  destruct (preorder_trace_run entries (Some filters_words) Htrace) as (sf & Hf & _).
  exists (store su, tree su), (store sf, tree sf).
  assert (generate_tree entries None = Ok (store su, tree su)) as Hgu
    by (unfold generate_tree; by rewrite Hu).
  assert (generate_tree entries (Some filters_words) = Ok (store sf, tree sf)) as Hgf
    by (unfold generate_tree; by rewrite Hf).
  split; [|split; [done|split; [by apply Hroot|done]]].
  unfold build_trees, parse_input_file.
  rewrite parse_loop_line_of; [|done|].
  - cbn [mbind result_bind fst app]. destruct (decide (entries = [])); [done|].
    cbn [mbind result_bind]. rewrite Hgu. cbn [mbind result_bind].
    by rewrite Hgf.
  - rewrite Forall_forall in Hall, Hnonneg. apply Forall_forall.
    intros e He. destruct (Hall e He). specialize (Hnonneg e He). cbn in Hnonneg.
    split; [lia|done].
Qed.

Lemma record_lines_build_both_trees_witness :
  ∃ full filtered,
    build_trees (line_of <$> [(0, "ntdll!A"); (1, "ntdll!RtlAllocateHeap"); (2, "ntdll!C");
                              (1, "kernel32!D")]%string) 9 ["Heap"%string] []
    = Ok (full, filtered,
          foldl adding_to_module_list []
                [(0, "ntdll!A"); (1, "ntdll!RtlAllocateHeap"); (2, "ntdll!C");
                 (1, "kernel32!D")]%string.*2)
    ∧ generate_tree [(0, "ntdll!A"); (1, "ntdll!RtlAllocateHeap"); (2, "ntdll!C");
                     (1, "kernel32!D")]%string None = Ok full
    ∧ is_Some full.2
    ∧ generate_tree [(0, "ntdll!A"); (1, "ntdll!RtlAllocateHeap"); (2, "ntdll!C");
                     (1, "kernel32!D")]%string (Some ["Heap"%string]) = Ok filtered.
Proof.
  apply record_lines_build_both_trees.
  - lia.
  - reflexivity.
  - repeat constructor; simpl; lia.
Defined.
